(** * CSRF guard and MongoDB key sanitizer: a shallow embedding

    Two middlewares of the application are modelled here:

    - [Csrf]: [middleware/csrfMiddleware.js], the double-submit-cookie
      guard with its process-wide [tokenStore] and the hourly sweep;
    - [MongoSanitize]: [middleware/mongoSanitizer.js], the recursive
      [clean] that rewrites the keys of request objects in place.

    JavaScript values that the code only tests for truthiness and compares
    with [===] are modelled as [option string] ([None] is [undefined]);
    objects that are mutated through references live in an explicit heap. *)

From Stdlib Require Import ZArith Ascii.
From stdpp Require Import base option list strings gmap fin_maps.

Local Open Scope Z_scope.

(** ** JavaScript string and truthiness helpers *)

Module Js.

(** [s.startsWith(p)] *)
Definition startsWith (p s : string) : bool := String.prefix p s.

(** [s.includes(p)] *)
Fixpoint includes (p s : string) : bool :=
  String.prefix p s ||
  match s with
  | EmptyString => false
  | String _ s' => includes p s'
  end.

(** Truthiness of a value that is either [undefined] or a string: the
    empty string is falsy. *)
Definition truthy (v : option string) : bool :=
  match v with
  | Some s => negb (String.eqb s EmptyString)
  | None => false
  end.

(** The value of [v] when it is truthy. *)
Definition nonempty (v : option string) : option string :=
  if truthy v then v else None.

(** [a || b] *)
Definition or (a b : option string) : option string :=
  if truthy a then a else b.

End Js.

(** ** The CSRF guard *)

Module Csrf.

(** The value side of [tokenStore]: [{ token, expires }]. *)
Record TokenData := mkTokenData { token : string; expires : Z }.

(** The parts of an Express request that the guard and its error handler
    read. *)
Record Request := mkRequest {
  method : string;
  sessionID : option string;          (* req.sessionID *)
  cookie_sessionId : option string;   (* req.cookies?.sessionId *)
  body_csrf : option string;          (* req.body?._csrf *)
  header_csrf : option string;        (* req.headers['x-csrf-token'] *)
  cookie_csrf : option string;        (* req.cookies?.['csrf-token'] *)
  xhr : bool;                         (* req.xhr *)
  header_accept : option string       (* req.headers.accept *)
}.

(** [res.cookie(name, value, options)] *)
Record Cookie := mkCookie {
  cookie_name : string;
  cookie_value : string;
  httpOnly : bool;
  secure : bool;
  sameSite : string;
  maxAge : Z
}.

(** An [Error] with the two fields the middleware attaches. A foreign
    error may carry no [code]. *)
Record Error := mkError {
  message : string;
  statusCode : Z;
  code : option string
}.

(** How the middleware hands over: [next()] or [next(error)]. *)
Inductive Next :=
| NextOk
| NextError (e : Error).

(** The module state: the token store, and how many tokens have been drawn
    from [crypto.randomBytes] so far. *)
Record World := mkWorld {
  tokenStore : gmap string TokenData;
  drawn : nat
}.

(** What one call of the middleware leaves behind. *)
Record Outcome := mkOutcome {
  world : World;
  set_cookie : option Cookie;         (* res.cookie(...) *)
  locals_csrfToken : option string;   (* res.locals.csrfToken *)
  next : Next
}.

Definition HOUR : Z := 60 * 60 * 1000.

Definition safe_methods : list string := ["GET"; "HEAD"; "OPTIONS"]%string.

(** [['GET', 'HEAD', 'OPTIONS'].includes(req.method)] *)
Definition is_safe (m : string) : bool := bool_decide (m ∈ safe_methods).

Section Guard.

(** [randomHex n] is the hex string of the [n]-th call of
    [crypto.randomBytes(32)]; [NODE_ENV] is [process.env.NODE_ENV]. *)
Variable randomHex : nat → string.
Variable NODE_ENV : option string.

Definition generateToken (w : World) : string * World :=
  (randomHex (drawn w), mkWorld (tokenStore w) (S (drawn w))).

Definition csrf_cookie (tok : string) : Cookie :=
  {| cookie_name := "csrf-token";
     cookie_value := tok;
     httpOnly := false;
     secure := bool_decide (NODE_ENV = Some "production"%string);
     sameSite := "strict";
     maxAge := HOUR |}.

Definition store_set (sid : string) (d : TokenData) (w : World) : World :=
  mkWorld (<[sid := d]> (tokenStore w)) (drawn w).

(** [req.sessionID || req.cookies?.sessionId] *)
Definition sessionId_of (req : Request) : option string :=
  Js.or (sessionID req) (cookie_sessionId req).

(** [req.body?._csrf || req.headers['x-csrf-token'] || req.cookies?.['csrf-token']] *)
Definition tokenFromRequest (req : Request) : option string :=
  Js.or (Js.or (body_csrf req) (header_csrf req)) (cookie_csrf req).

Definition csrf_error (msg : string) : Error :=
  {| message := msg; statusCode := 403; code := Some "EBADCSRFTOKEN"%string |}.

Definition reject (msg : string) (w : World) : Outcome :=
  {| world := w; set_cookie := None; locals_csrfToken := None;
     next := NextError (csrf_error msg) |}.

(** Store [tok] for [sid], set the cookie, expose it to the templates and
    call [next()]. *)
Definition issue (now : Z) (sid tok : string) (w : World) : Outcome :=
  {| world := store_set sid (mkTokenData tok (now + HOUR)) w;
     set_cookie := Some (csrf_cookie tok);
     locals_csrfToken := Some tok;
     next := NextOk |}.

(** [csrfProtection(req, res, next)], run when [Date.now()] is [now].
    [Js.nonempty v] is [Some s] exactly when [v] is truthy, so the first
    [match] is the test [!sessionId || !tokenFromRequest]. *)
Definition csrfProtection (now : Z) (req : Request) (w : World) : Outcome :=
  if is_safe (method req) then
    let '(tok, w1) := generateToken w in
    let '(sid, w2) :=
      match Js.nonempty (sessionId_of req) with
      | Some s => (s, w1)
      | None => generateToken w1
      end in
    issue now sid tok w2
  else
    match Js.nonempty (sessionId_of req), Js.nonempty (tokenFromRequest req) with
    | Some sid, Some cand =>
      match tokenStore w !! sid with
      | None => reject "Invalid CSRF token" w
      | Some storedData =>
        if negb (String.eqb (token storedData) cand) then
          reject "Invalid CSRF token" w
        else
          let '(newToken, w1) := generateToken w in
          issue now sid newToken w1
      end
    | _, _ => reject "CSRF token missing" w
    end.

(** The callback of [setInterval]: delete every entry with
    [now > data.expires]. *)
Definition sweep (now : Z) (w : World) : World :=
  mkWorld
    (map_fold (λ key data store,
                 if bool_decide (expires data < now) then delete key store
                 else store)
              (tokenStore w) (tokenStore w))
    (drawn w).

(** [csrfErrorHandler(err, req, res, next)] ends in one of three ways. *)
Inductive Handled :=
| PassOn (e : Error)                                  (* next(err) *)
| SendJson (status : Z) (body : list (string * string))
| RenderView (status : Z) (view : string) (locals : list (string * string)).

Definition accepts_json (req : Request) : bool :=
  match header_accept req with
  | Some a => Js.includes "application/json" a
  | None => false
  end.

Definition csrfErrorHandler (err : Error) (req : Request) : Handled :=
  if negb (bool_decide (code err = Some "EBADCSRFTOKEN"%string)) then PassOn err
  else if xhr req || accepts_json req then
    SendJson 403
      [("status", "error");
       ("message",
        "Invalid or missing CSRF token. Please refresh the page and try again.")]%string
  else
    RenderView 403 "errors/403"
      [("title", "Forbidden");
       ("message", "Invalid security token. Please go back and try again.")]%string.

(** The HTTP status of the response, when the handler sends one. *)
Definition status_of (h : Handled) : option Z :=
  match h with
  | PassOn _ => None
  | SendJson status _ => Some status
  | RenderView status _ _ => Some status
  end.

(** What happens to the module between two moments: a request goes through
    the guard, or the timer fires. *)
Inductive Event :=
| Handle (now : Z) (req : Request)
| Tick (now : Z).

Definition step (w : World) (ev : Event) : World :=
  match ev with
  | Handle now req => world (csrfProtection now req w)
  | Tick now => sweep now w
  end.

Definition run (evs : list Event) (w : World) : World := foldl step w evs.

(** The record of [sid], if any, does not hold the token [T], and every
    token still to be drawn differs from [T]. *)
Definition consumed (sid T : string) (w : World) : Prop :=
  (∀ d, tokenStore w !! sid = Some d → token d ≠ T) ∧
  (∀ n, (drawn w ≤ n)%nat → randomHex n ≠ T).

(** The request fails validation: [next] is called with an error. *)
Definition rejected (o : Outcome) : Prop := ∃ e, next o = NextError e.

End Guard.

(** The store with the record of [sid] removed. *)
Definition forget (sid : string) (w : World) : World :=
  mkWorld (delete sid (tokenStore w)) (drawn w).

(** The candidate token as the specification words it: the body field
    when present, otherwise the header when present, otherwise the cookie,
    where present means that the field is there at all. Compared with
    [tokenFromRequest] below. *)
Definition candidate_when_present (req : Request) : option string :=
  match body_csrf req with
  | Some t => Some t
  | None =>
    match header_csrf req with
    | Some t => Some t
    | None => cookie_csrf req
    end
  end.

(** The four ways an unsafe request can fail. *)
Definition failure_cause (req : Request) (w : World) : Prop :=
  Js.nonempty (sessionId_of req) = None ∨
  Js.nonempty (tokenFromRequest req) = None ∨
  ∃ sid cand,
    Js.nonempty (sessionId_of req) = Some sid ∧
    Js.nonempty (tokenFromRequest req) = Some cand ∧
    (tokenStore w !! sid = None ∨
     ∃ d, tokenStore w !! sid = Some d ∧ token d ≠ cand).

(** *** Sample data for the examples *)

(** A generator that never repeats itself: "a", "ba", "bba", ... *)
Fixpoint sample_hex (n : nat) : string :=
  match n with
  | O => "a"
  | S n' => "b" +:+ sample_hex n'
  end.

Definition sample_request (m : string) (sid body header cookie : option string)
  : Request :=
  {| method := m; sessionID := sid; cookie_sessionId := None;
     body_csrf := body; header_csrf := header; cookie_csrf := cookie;
     xhr := false; header_accept := None |}.

Definition post_header (sid tok : string) : Request :=
  sample_request "POST" (Some sid) None (Some tok) None.

Definition sample_world (sid tok : string) (exp : Z) : World :=
  mkWorld {[ sid := mkTokenData tok exp ]} 0.

End Csrf.

(** ** The MongoDB key sanitizer *)

Module MongoSanitize.

(** Objects and arrays are reached through references into a heap, so that
    two holders of one object see each other's writes. *)
Abbreviation loc := positive.

(** A JavaScript value as a request carries it. [clean] never looks inside a
    number, so an integer stands for it. *)
Inductive value :=
| VUndefined
| VNull
| VBool (b : bool)
| VNumber (n : Z)
| VString (s : string)
| VRef (l : loc).

(** The own enumerable properties of an object, in the order in which
    [for...in] enumerates them, or the elements of an array. *)
Inductive cell :=
| Object (props : list (string * value))
| Array (elems : list value).

(** The heap, the keys handed to [onSanitize] so far (oldest first), and the
    number of assignments to the property [__proto__] made so far. *)
Record Store := mkStore {
  heap : gmap loc cell;
  reported : list string;
  proto_writes : nat
}.

Definition is_ref (v : value) : bool :=
  match v with VRef _ => true | _ => false end.

(** [a === b] *)
Definition strict_eq (a b : value) : bool :=
  match a, b with
  | VUndefined, VUndefined => true
  | VNull, VNull => true
  | VBool x, VBool y => Bool.eqb x y
  | VNumber x, VNumber y => Z.eqb x y
  | VString x, VString y => String.eqb x y
  | VRef x, VRef y => Pos.eqb x y
  | _, _ => false
  end.

(** Truthiness, for [if (req.body)]. *)
Definition truthy_value (v : value) : bool :=
  match v with
  | VUndefined | VNull => false
  | VBool b => b
  | VNumber n => negb (Z.eqb n 0)
  | VString s => negb (String.eqb s EmptyString)
  | VRef _ => true
  end.

(** *** Keys *)

(** [key.startsWith('$') || key.includes('.')] *)
Definition forbidden (key : string) : bool :=
  Js.startsWith "$" key || Js.includes "." key.

(** Every [.] replaced by [replaceWith]. *)
Fixpoint replace_dots (replaceWith s : string) : string :=
  match s with
  | EmptyString => EmptyString
  | String c s' =>
    if Ascii.eqb c "."%char then replaceWith +:+ replace_dots replaceWith s'
    else String c (replace_dots replaceWith s')
  end.

(** [key.replace(/^\$|\./g, replaceWith)], for a [replaceWith] without
    replacement patterns ([$&] and the like), which is spliced in as it is. *)
Definition replace_forbidden (replaceWith key : string) : string :=
  match key with
  | EmptyString => EmptyString
  | String c s' =>
    if Ascii.eqb c "$"%char then replaceWith +:+ replace_dots replaceWith s'
    else replace_dots replaceWith key
  end.

(** *** Own properties *)

Fixpoint get_prop (key : string) (props : list (string * value)) : option value :=
  match props with
  | [] => None
  | (k, v) :: props' => if String.eqb k key then Some v else get_prop key props'
  end.

(** [Object.prototype.hasOwnProperty.call(value, key)] *)
Definition has_own (key : string) (props : list (string * value)) : bool :=
  match get_prop key props with Some _ => true | None => false end.

(** [delete value[key]] *)
Fixpoint delete_prop (key : string) (props : list (string * value))
  : list (string * value) :=
  match props with
  | [] => []
  | (k, v) :: props' =>
    if String.eqb k key then delete_prop key props'
    else (k, v) :: delete_prop key props'
  end.

(** Define or overwrite the own property [key]: an existing property keeps
    its place, a new one goes last. *)
Fixpoint set_prop (key : string) (v : value) (props : list (string * value))
  : list (string * value) :=
  match props with
  | [] => [(key, v)]
  | (k, v') :: props' =>
    if String.eqb k key then (k, v) :: props'
    else (k, v') :: set_prop key v props'
  end.

Definition own_props (σ : Store) (l : loc) : option (list (string * value)) :=
  match heap σ !! l with
  | Some (Object props) => Some props
  | _ => None
  end.

Definition write_cell (l : loc) (c : cell) (σ : Store) : Store :=
  mkStore (<[l := c]> (heap σ)) (reported σ) (proto_writes σ).

(** [value[key]] for the object at [l]. *)
Definition read_prop (l : loc) (key : string) (σ : Store) : value :=
  match own_props σ l with
  | Some props => default VUndefined (get_prop key props)
  | None => VUndefined
  end.

(** [delete value[key]] for the object at [l]. *)
Definition delete_key (l : loc) (key : string) (σ : Store) : Store :=
  match own_props σ l with
  | Some props => write_cell l (Object (delete_prop key props)) σ
  | None => σ
  end.

Section Clean.

(** [replaceWith] and whether an [onSanitize] callback was given (the
    application passes one that logs the key). *)
Variable replaceWith : string.
Variable onSanitize : bool.

(** An assignment [value['__proto__'] = v] to an object without an own
    property of that name does not always define one: when the prototype chain
    leads to the accessor of [Object.prototype], the prototype is changed and
    the own properties stay as they are. Prototypes are not part of the heap
    above; [accessor_hit n] tells whether the [n]-th such assignment is taken
    by the accessor, and every statement below holds whatever it answers. *)
Variable accessor_hit : nat → bool.

(** [value[key] = v] for the object at [l]. *)
Definition assign (l : loc) (key : string) (v : value) (σ : Store) : Store :=
  match own_props σ l with
  | Some props =>
    if String.eqb key "__proto__" && negb (has_own key props) then
      let σ' := mkStore (heap σ) (reported σ) (S (proto_writes σ)) in
      if accessor_hit (proto_writes σ) then σ'
      else write_cell l (Object (set_prop key v props)) σ'
    else write_cell l (Object (set_prop key v props)) σ
  | None => σ
  end.

(** [onSanitize({ req, key })] *)
Definition report (key : string) (σ : Store) : Store :=
  mkStore (heap σ) (reported σ ++ [key]) (proto_writes σ).

(** One turn of the loop [for (const key in value)], [rec] being the
    recursive call. A key deleted before its turn is not visited. *)
Definition clean_key (rec : Store → value → option (Store * value))
    (l : loc) (key : string) (σ : Store) : option Store :=
  match own_props σ l with
  | None => None
  | Some props =>
    match get_prop key props with
    | None => Some σ
    | Some v =>
      let keyChanged := forbidden key in
      let newKey := if keyChanged then replace_forbidden replaceWith key else key in
      let σ1 := if keyChanged && onSanitize then report key σ else σ in
      match rec σ1 v with
      | None => None
      | Some (σ2, cleanedValue) =>
        if keyChanged then
          Some (assign l newKey cleanedValue (delete_key l key σ2))
        else if negb (strict_eq (read_prop l key σ2) cleanedValue) then
          Some (assign l key cleanedValue σ2)
        else Some σ2
      end
    end
  end.

Fixpoint clean_keys (rec : Store → value → option (Store * value))
    (l : loc) (keys : list string) (σ : Store) : option Store :=
  match keys with
  | [] => Some σ
  | key :: keys' =>
    match clean_key rec l key σ with
    | None => None
    | Some σ' => clean_keys rec l keys' σ'
    end
  end.

(** [elems.map(v => rec(v))] *)
Fixpoint clean_elems (rec : Store → value → option (Store * value))
    (elems : list value) (σ : Store) : option (Store * list value) :=
  match elems with
  | [] => Some (σ, [])
  | v :: elems' =>
    match rec σ v with
    | None => None
    | Some (σ1, v') =>
      match clean_elems rec elems' σ1 with
      | None => None
      | Some (σ2, vs') => Some (σ2, v' :: vs')
      end
    end
  end.

(** [clean(value, replaceWith, onSanitize, req)]. The recursion follows
    references, so it is bounded by [fuel]: [None] stands for a call that has
    not returned within that depth. *)
Fixpoint clean (fuel : nat) (σ : Store) (v : value) : option (Store * value) :=
  match fuel with
  | O => None
  | S fuel' =>
    match v with
    | VRef l =>
      match heap σ !! l with
      | Some (Array elems) =>
        match clean_elems (clean fuel') elems σ with
        | None => None
        | Some (σ', elems') =>
          let l' := fresh (dom (heap σ')) in
          Some (write_cell l' (Array elems') σ', VRef l')
        end
      | Some (Object props) =>
        match clean_keys (clean fuel') l props.*1 σ with
        | None => None
        | Some σ' => Some (σ', VRef l)
        end
      | None => None
      end
    | _ => Some (σ, v)
    end
  end.

(** The middleware returned by [mongoSanitize(...)]: the three parts of the
    request are cleaned where they lie and the results are dropped. *)
Definition clean_part (fuel : nat) (part : value) (σ : Store) : option Store :=
  if truthy_value part then fst <$> clean fuel σ part else Some σ.

Definition mongoSanitize (fuel : nat) (body query params : value) (σ : Store)
  : option Store :=
  match clean_part fuel body σ with
  | None => None
  | Some σ1 =>
    match clean_part fuel query σ1 with
    | None => None
    | Some σ2 => clean_part fuel params σ2
    end
  end.

End Clean.

(** *** What the theorems speak of *)

(** [v] is the value of an own property of the object, or an element of the
    array. *)
Definition member (v : value) (c : cell) : Prop :=
  match c with
  | Object props => ∃ key, get_prop key props = Some v
  | Array elems => v ∈ elems
  end.

(** The objects and arrays that can be reached from a value. *)
Inductive reach (h : gmap loc cell) : value → loc → Prop :=
| reach_here l : reach h (VRef l) l
| reach_member l c v m :
    h !! l = Some c → member v c → reach h v m → reach h (VRef l) m.

(** No own key of the object begins with [$] or contains a [.]. *)
Definition keys_clean (c : cell) : Prop :=
  match c with
  | Object props => ∀ key, key ∈ props.*1 → forbidden key = false
  | Array _ => True
  end.

Definition is_object (h : gmap loc cell) (l : loc) : Prop :=
  ∃ props, h !! l = Some (Object props).

(** The objects of [h'] are those of [h], and the arrays of [h] are in [h']
    as they were. *)
Definition same_objects (h h' : gmap loc cell) : Prop :=
  (∀ l, is_object h l ↔ is_object h' l) ∧
  (∀ l elems, h !! l = Some (Array elems) → h' !! l = Some (Array elems)).

Definition val_in (G : gset loc) (v : value) : Prop :=
  match v with VRef l => l ∈ G | _ => True end.

(** Every cell of [G] is there, has clean keys and leads only into [G]. *)
Definition certified (h : gmap loc cell) (G : gset loc) : Prop :=
  ∀ l, l ∈ G →
    ∃ c, h !! l = Some c ∧ keys_clean c ∧ ∀ v, member v c → val_in G v.

(** From [h] to [h'] the objects stay the same objects, and a property of an
    object of [h'] is either a property it had in [h] or has a clean key and a
    value in [G]. *)
Definition evolves (G : gset loc) (h h' : gmap loc cell) : Prop :=
  same_objects h h' ∧
  ∀ l props props',
    h !! l = Some (Object props) → h' !! l = Some (Object props') →
    ∀ key v, get_prop key props' = Some v →
      get_prop key props = Some v ∨ (forbidden key = false ∧ val_in G v).

(** Inside the loop over the keys of the object at [l]: a property whose
    key is not among those still to be visited has a clean key and a value in
    [G]. *)
Definition visited_but (rest : list string) (G : gset loc) (σ : Store) (l : loc)
  : Prop :=
  ∀ props key v,
    own_props σ l = Some props → get_prop key props = Some v →
    key ∈ rest ∨ (forbidden key = false ∧ val_in G v).

(** How the keys of the objects of [h'] come from those of [h], under the
    default replacement character: a key that is not forbidden stays; a
    forbidden key stays or has given way to its replacement (which, when it is
    [__proto__], may have gone to the accessor instead); and there is no other
    key. *)
Definition rekeyed (h h' : gmap loc cell) : Prop :=
  same_objects h h' ∧
  ∀ l props props',
    h !! l = Some (Object props) → h' !! l = Some (Object props') →
    (∀ key, key ∈ props.*1 →
       key ∈ props'.*1 ∨
       (forbidden key = true ∧
        (replace_forbidden "_" key ∈ props'.*1 ∨
         replace_forbidden "_" key = "__proto__"%string))) ∧
    (∀ key', key' ∈ props'.*1 →
       key' ∈ props.*1 ∨
       ∃ key, key ∈ props.*1 ∧ forbidden key = true ∧
              key' = replace_forbidden "_" key).

(** A reference to a cell that is there and ranks below [bound]. *)
Definition below (r : loc → nat) (h : gmap loc cell) (bound : nat) (v : value)
  : Prop :=
  match v with
  | VRef l => is_Some (h !! l) ∧ (r l < bound)%nat
  | _ => True
  end.

(** [r] ranks every cell above its members: the heap has no cycle and no
    dangling reference. *)
Definition ranked (r : loc → nat) (h : gmap loc cell) : Prop :=
  ∀ l c, h !! l = Some c → ∀ v, member v c → below r h (r l) v.

Definition acyclic (h : gmap loc cell) : Prop := ∃ r, ranked r h.

(** From [h] ranked by [r] to [h'] ranked by [r']: the objects stay the same
    objects, no cell goes away and no cell of [h] changes its rank. *)
Definition rank_extends (r : loc → nat) (h : gmap loc cell)
    (r' : loc → nat) (h' : gmap loc cell) : Prop :=
  same_objects h h' ∧
  ∀ l, is_Some (h !! l) → is_Some (h' !! l) ∧ r' l = r l.

(** *** Sample data for the examples *)

Definition store_of (cells : list (loc * cell)) : Store :=
  mkStore (list_to_map cells) [] 0.

(** [{ "$gt": 1, "a.b": [{ "$where": "x" }], "ok": true }] *)
Definition sample_store : Store :=
  store_of [(1%positive, Object [("$gt", VNumber 1); ("a.b", VRef 2); ("ok", VBool true)]);
            (2%positive, Array [VRef 3; VString "s"]);
            (3%positive, Object [("$where", VString "x")])]%string.

(** A ranking of [sample_store]: the object above the array above the
    inner object. *)
Definition sample_rank (l : loc) : nat :=
  match l with
  | 1%positive => 2
  | 2%positive => 1
  | _ => 0
  end%nat.

(** [sample_store] after [clean(body)], as JavaScript leaves it. *)
Definition sample_cleaned : Store :=
  mkStore
    (list_to_map
       [(1%positive, Object [("ok", VBool true); ("_gt", VNumber 1); ("a_b", VRef 4)]);
        (2%positive, Array [VRef 3; VString "s"]);
        (3%positive, Object [("_where", VString "x")]);
        (4%positive, Array [VRef 3; VString "s"])]%string)
    ["$gt"; "a.b"; "$where"]%string 0.

End MongoSanitize.

(** ** More notions for the CSRF guard *)

Module CsrfNotions.
Import Csrf.

Section Guard.

Variable randomHex : nat → string.

(** Every token in the store is one that the generator has produced. *)
Definition generated_only (w : World) : Prop :=
  ∀ sid d, tokenStore w !! sid = Some d →
           ∃ n, (n < drawn w)%nat ∧ token d = randomHex n.

End Guard.

(** A GET of the session [sid]. *)
Definition get_of (sid : string) : Request :=
  sample_request "GET" (Some sid) None None None.

(** The module as it is loaded: [new Map()], nothing drawn yet. *)
Definition initial : World := mkWorld ∅ 0.

End CsrfNotions.

(** ** JWT authentication middleware

    [authMiddleware.js]. The library calls [jwt.verify] and [jwt.sign] are
    parameters; what the middleware does around them is modelled. *)

Module Auth.
Import MongoSanitize.

(** What [jwt.verify] hands back, as far as the middleware reads it. [exp]
    is [None] when [decoded.exp * 1000] is not a number. *)
Record Payload := mkPayload {
  id : value;
  email : value;
  role : value;
  exp : option Z
}.

Record Request := mkRequest {
  authorization : option string;     (* req.headers.authorization *)
  cookie_token : option string;      (* req.cookies?.token *)
  query_token : option string;       (* req.query?.token *)
  user : option Payload;             (* req.user *)
  params : string → value;           (* req.params[name] *)
  body : option (string → value)     (* req.body, then req.body[name] *)
}.

(** What a middleware has done to the response before [next()]. *)
Record Effects := mkEffects {
  token_cookie : option Csrf.Cookie;   (* res.cookie('token', ...) *)
  x_new_token : option string          (* res.setHeader('X-New-Token', ...) *)
}.

Definition untouched : Effects := mkEffects None None.

(** How a middleware ends: [next()], [res.status(s).json({ status: 'error',
    message })], or an exception. *)
Inductive Answer :=
| Next (req : Request) (res : Effects)
| Json (status : Z) (message : string)
| Throws.

Definition set_user (decoded : Payload) (req : Request) : Request :=
  mkRequest (authorization req) (cookie_token req) (query_token req)
            (Some decoded) (params req) (body req).

(** [s.substring(n)] *)
Fixpoint substring_from (n : nat) (s : string) : string :=
  match n, s with
  | O, _ => s
  | S n', String _ s' => substring_from n' s'
  | S _, EmptyString => EmptyString
  end.

(** [authHeader && authHeader.startsWith('Bearer ')] *)
Definition is_bearer (authHeader : option string) : bool :=
  match authHeader with
  | Some h => Js.truthy (Some h) && Js.startsWith "Bearer " h
  | None => false
  end.

(** [extractToken(req)]; [None] is [null]. *)
Definition extractToken (req : Request) : option string :=
  if is_bearer (authorization req) then
    substring_from 7 <$> authorization req
  else if Js.truthy (cookie_token req) then cookie_token req
  else if Js.truthy (query_token req) then query_token req
  else None.

(** [a || b] on values. *)
Definition or_value (a b : value) : value := if truthy_value a then a else b.

Definition ONE_HOUR : Z := 60 * 60 * 1000.
Definition SEVEN_DAYS : Z := 7 * 24 * 60 * 60 * 1000.

Section Middleware.

(** [jwt_verify ignoreExpiration now token] is [jwt.verify(token, JWT_SECRET,
    { ignoreExpiration })] run at time [now], [None] when it throws;
    [jwt_sign now id email role] is [jwt.sign({ id, email, role }, JWT_SECRET,
    { expiresIn, issuer })]. *)
Variable jwt_verify : bool → Z → string → option Payload.
Variable jwt_sign : Z → value → value → value → string.
Variable NODE_ENV : option string.

(** [verifyToken(token)] *)
Definition verifyToken (now : Z) (token : string) : option Payload :=
  jwt_verify false now token.

(** [authenticate(req, res, next)] *)
Definition authenticate (now : Z) (req : Request) : Answer :=
  match Js.nonempty (extractToken req) with
  | None => Json 401 "Authentication required. Please login."
  | Some token =>
    match verifyToken now token with
    | None => Json 401 "Invalid or expired token. Please login again."
    | Some decoded => Next (set_user decoded req) untouched
    end
  end.

(** [optionalAuth(req, res, next)] *)
Definition optionalAuth (now : Z) (req : Request) : Answer :=
  match Js.nonempty (extractToken req) with
  | None => Next req untouched
  | Some token =>
    match verifyToken now token with
    | None => Next req untouched
    | Some decoded => Next (set_user decoded req) untouched
    end
  end.

(** [authorize(...allowedRoles)(req, res, next)] *)
Definition authorize (allowedRoles : list value) (req : Request) : Answer :=
  match user req with
  | None => Json 401 "Authentication required."
  | Some u =>
    let userRole := or_value (role u) (VString "user") in
    if negb (existsb (λ r, strict_eq r userRole) allowedRoles) then
      Json 403 "You do not have permission to perform this action."
    else Next req untouched
  end.

Definition token_cookie_for (newToken : string) : Csrf.Cookie :=
  {| Csrf.cookie_name := "token";
     Csrf.cookie_value := newToken;
     Csrf.httpOnly := true;
     Csrf.secure := bool_decide (NODE_ENV = Some "production"%string);
     Csrf.sameSite := "strict";
     Csrf.maxAge := SEVEN_DAYS |}.

(** [refreshToken(req, res, next)]; whatever is thrown inside the [try] ends
    in [next()] all the same. *)
Definition refreshToken (now : Z) (req : Request) : Answer :=
  match Js.nonempty (extractToken req) with
  | None => Next req untouched
  | Some token =>
    match jwt_verify true now token with
    | None => Next req untouched
    | Some decoded =>
      match exp decoded with
      | None => Next req untouched
      | Some e =>
        let expiresIn := e * 1000 - now in
        if (expiresIn <? ONE_HOUR) && (expiresIn >? 0) then
          let newToken := jwt_sign now (id decoded) (email decoded) (role decoded) in
          Next req (mkEffects (Some (token_cookie_for newToken)) (Some newToken))
        else Next req untouched
      end
    end
  end.

(** [isOwner(resourceUserIdField)(req, res, next)]. [req.body[field]] is
    evaluated only when [req.params[field]] is falsy, and throws when there is
    no body. *)
Definition isOwner (resourceUserIdField : string) (req : Request) : Answer :=
  match user req with
  | None => Json 401 "Authentication required."
  | Some u =>
    let fromParams := params req resourceUserIdField in
    let resourceUserId :=
      if truthy_value fromParams then Some fromParams
      else (λ b, b resourceUserIdField) <$> body req in
    match resourceUserId with
    | None => Throws
    | Some resourceUserId =>
      if strict_eq (role u) (VString "admin") then Next req untouched
      else if negb (strict_eq (id u) resourceUserId) then
        Json 403 "You can only access your own resources."
      else Next req untouched
    end
  end.

(** [authenticate] and then [authorize(...allowedRoles)], as a route mounts
    them. *)
Definition authenticate_then_authorize (allowedRoles : list value)
    (now : Z) (req : Request) : Answer :=
  match authenticate now req with
  | Next req' _ => authorize allowedRoles req'
  | answer => answer
  end.

End Middleware.

(** *** Sample data for the examples *)

Definition sample_request : Request :=
  mkRequest None None None None (λ _, VUndefined) None.

Definition with_authorization (h : string) (req : Request) : Request :=
  mkRequest (Some h) (cookie_token req) (query_token req) (user req)
            (params req) (body req).

Definition with_cookie_token (t : string) (req : Request) : Request :=
  mkRequest (authorization req) (Some t) (query_token req) (user req)
            (params req) (body req).

Definition with_param (name : string) (v : value) (req : Request) : Request :=
  mkRequest (authorization req) (cookie_token req) (query_token req) (user req)
            (λ n, if String.eqb n name then v else params req n) (body req).

Definition sample_user (uid r : value) : Payload :=
  mkPayload uid (VString "a@b.c") r (Some 1000).

(** A verifier that accepts the token "good" only, whatever the clock. *)
Definition sample_verify (ignoreExpiration : bool) (now : Z) (token : string)
  : option Payload :=
  if String.eqb token "good" then Some (sample_user (VString "7") (VString "user"))
  else None.

Definition sample_sign (now : Z) (uid mail r : value) : string := "signed".

End Auth.

(** ** Canonical URLs

    [getCanonicalUrl] of [seoMiddleware.js]. *)

Module Seo.

(** [s.split('?')[0]] *)
Fixpoint before_query (s : string) : string :=
  match s with
  | EmptyString => EmptyString
  | String c s' =>
    if Ascii.eqb c "?"%char then EmptyString else String c (before_query s')
  end.

(** [s.replace(/\/$/, '')] *)
Fixpoint strip_trailing_slash (s : string) : string :=
  match s with
  | EmptyString => EmptyString
  | String c EmptyString => if Ascii.eqb c "/"%char then EmptyString else s
  | String c s' => String c (strip_trailing_slash s')
  end.

Section Site.

(** [process.env.SITE_URL || 'http://localhost:3000'] *)
Variable SITE_URL : string.

(** [getCanonicalUrl(req)], of [req.originalUrl]. *)
Definition getCanonicalUrl (originalUrl : string) : string :=
  let pathWithoutQuery := before_query originalUrl in
  let cleanPath :=
    if String.eqb pathWithoutQuery "/" then "/"%string
    else strip_trailing_slash pathWithoutQuery in
  SITE_URL +:+ cleanPath.

End Site.

(** A string without the character [c]. *)
Definition lacks (c : ascii) (s : string) : Prop :=
  c ∉ String.list_ascii_of_string s.

(** The last character of [s] is not [c]. *)
Definition not_ending_in (c : ascii) (s : string) : Prop :=
  last (String.list_ascii_of_string s) ≠ Some c.

End Seo.

(** ** More notions for the sanitizer *)

Module MongoSanitizeNotions.
Import MongoSanitize.

(** All values of the properties are primitives. *)
Definition flat (props : list (string * value)) : Prop :=
  ∀ key v, get_prop key props = Some v → is_ref v = false.

(** No two keys end up under one name: the replacement of a forbidden key is
    no key of the object, is not the replacement of another forbidden key, and
    is not [__proto__]. *)
Definition collision_free (props : list (string * value)) : Prop :=
  ∀ key, key ∈ props.*1 → forbidden key = true →
    (replace_forbidden "_" key ∉ props.*1) ∧
    (replace_forbidden "_" key ≠ "__proto__"%string) ∧
    (∀ key', key' ∈ props.*1 → forbidden key' = true →
             replace_forbidden "_" key' = replace_forbidden "_" key → key' = key).

(** Inside the loop over the keys of a flat object that began as [P] and
    now holds [ps]: a key that is not forbidden has its value; a forbidden
    key has its value still, its turn being ahead, or has passed it on to its
    replacement; and [ps] holds nothing else. *)
Definition tracks (P ps : list (string * value)) (rest : list string) : Prop :=
  (∀ k v, get_prop k P = Some v → forbidden k = false → get_prop k ps = Some v) ∧
  (∀ k v, get_prop k P = Some v → forbidden k = true →
     (k ∈ rest ∧ get_prop k ps = Some v) ∨
     (get_prop k ps = None ∧ get_prop (replace_forbidden "_" k) ps = Some v)) ∧
  (∀ k' v, get_prop k' ps = Some v →
     (get_prop k' P = Some v ∧ (forbidden k' = true → k' ∈ rest)) ∨
     (∃ k, get_prop k P = Some v ∧ forbidden k = true ∧
           k' = replace_forbidden "_" k)).

(** Where a key ends up. *)
Definition final_key (key : string) : string :=
  if forbidden key then replace_forbidden "_" key else key.

(** [{ "a.b": 1, "$c": "x", "d": null }] *)
Definition flat_store : Store :=
  store_of [(1%positive,
             Object [("a.b", VNumber 1); ("$c", VString "x"); ("d", VNull)])]%string.

End MongoSanitizeNotions.

(** * Properties *)

Module JsFacts.
Import Js.

Lemma truthy_Some s : truthy (Some s) = true ↔ s ≠ EmptyString.
Proof.
  unfold truthy. rewrite negb_true_iff.
  destruct (String.eqb_spec s EmptyString); split; congruence.
Qed.

Lemma truthy_true v : truthy v = true → ∃ s, v = Some s ∧ s ≠ EmptyString.
Proof.
  destruct v as [s|]; [|discriminate].
  intros Hs. exists s. split; [done|]. by apply truthy_Some.
Qed.

Lemma nonempty_Some v s : nonempty v = Some s ↔ v = Some s ∧ s ≠ EmptyString.
Proof.
  unfold nonempty. destruct (truthy v) eqn:E.
  - apply truthy_true in E as (s' & -> & Hs). split.
    + intros [= <-]. done.
    + by intros [? _].
  - split; [done|]. intros [-> Hs]. apply truthy_Some in Hs. congruence.
Qed.

Lemma nonempty_None v : nonempty v = None ↔ truthy v = false.
Proof.
  unfold nonempty. destruct (truthy v) eqn:E; [|done].
  apply truthy_true in E as (s' & -> & Hs). split; discriminate.
Qed.

Lemma or_truthy_l a b : truthy a = true → or a b = a.
Proof. unfold or. by intros ->. Qed.

Lemma or_falsy_l a b : truthy a = false → or a b = b.
Proof. unfold or. by intros ->. Qed.

End JsFacts.

(** ** The CSRF guard *)

Module CsrfFacts.
Import Js JsFacts Csrf.

Section Guard.

Variable randomHex : nat → string.
Variable NODE_ENV : option string.

Abbreviation csrfProtection := (csrfProtection randomHex NODE_ENV).
Abbreviation issue := (issue NODE_ENV).
Abbreviation step := (step randomHex NODE_ENV).
Abbreviation run := (run randomHex NODE_ENV).
Abbreviation consumed := (consumed randomHex).

(** *** The two branches, as equations *)

Lemma csrfProtection_safe now req w :
  is_safe (method req) = true →
  csrfProtection now req w =
    match nonempty (sessionId_of req) with
    | Some s =>
        issue now s (randomHex (drawn w))
              (mkWorld (tokenStore w) (S (drawn w)))
    | None =>
        issue now (randomHex (S (drawn w))) (randomHex (drawn w))
              (mkWorld (tokenStore w) (S (S (drawn w))))
    end.
Proof.
  intros Hm. unfold Csrf.csrfProtection. rewrite Hm. cbn.
  by destruct (nonempty (sessionId_of req)).
Qed.

Lemma csrfProtection_unsafe now req w :
  is_safe (method req) = false →
  csrfProtection now req w =
    match nonempty (sessionId_of req), nonempty (tokenFromRequest req) with
    | Some sid, Some cand =>
        match tokenStore w !! sid with
        | None => reject "Invalid CSRF token" w
        | Some d =>
            if String.eqb (token d) cand
            then issue now sid (randomHex (drawn w))
                       (mkWorld (tokenStore w) (S (drawn w)))
            else reject "Invalid CSRF token" w
        end
    | _, _ => reject "CSRF token missing" w
    end.
Proof.
  intros Hm. unfold Csrf.csrfProtection. rewrite Hm.
  destruct (nonempty (sessionId_of req)) as [sid|]; [|done].
  destruct (nonempty (tokenFromRequest req)) as [cand|]; [|done].
  destruct (tokenStore w !! sid) as [d|]; [|done].
  by destruct (String.eqb (token d) cand).
Qed.

(** An unsafe request passes exactly when both the session key and the
    candidate are truthy and the candidate is the stored token. *)
Lemma unsafe_passes now req w :
  is_safe (method req) = false →
  next (csrfProtection now req w) = NextOk ↔
  ∃ sid d, nonempty (sessionId_of req) = Some sid ∧
           tokenStore w !! sid = Some d ∧
           nonempty (tokenFromRequest req) = Some (token d).
Proof.
  intros Hm. rewrite (csrfProtection_unsafe _ _ _ Hm). split.
  - destruct (nonempty (sessionId_of req)) as [sid|]; [|done].
    destruct (nonempty (tokenFromRequest req)) as [cand|]; [|done].
    destruct (tokenStore w !! sid) as [d|] eqn:Hd; [|done].
    destruct (String.eqb_spec (token d) cand) as [<-|]; [|done].
    intros _. by exists sid, d.
  - intros (sid & d & -> & -> & ->). by rewrite String.eqb_refl.
Qed.

Lemma unsafe_outcome now req w :
  is_safe (method req) = false →
  next (csrfProtection now req w) = NextOk ∨
  csrfProtection now req w = reject "CSRF token missing" w ∨
  csrfProtection now req w = reject "Invalid CSRF token" w.
Proof.
  intros Hm. rewrite (csrfProtection_unsafe _ _ _ Hm).
  destruct (nonempty (sessionId_of req)) as [sid|]; [|auto].
  destruct (nonempty (tokenFromRequest req)) as [cand|]; [|auto].
  destruct (tokenStore w !! sid) as [d|]; [|auto].
  destruct (String.eqb (token d) cand); auto.
Qed.

Lemma rejected_not_ok (o : Outcome) : rejected o ↔ next o ≠ NextOk.
Proof.
  unfold rejected. destruct (next o) as [|e]; split.
  - by intros [? ?].
  - done.
  - done.
  - eauto.
Qed.

(** *** The sweep *)

Lemma sweep_fold_lookup now (m acc : gmap string TokenData) key :
  map_fold (λ k d store,
              if bool_decide (expires d < now) then delete k store else store)
           acc m !! key =
    match m !! key with
    | Some d => if bool_decide (expires d < now) then None else acc !! key
    | None => acc !! key
    end.
Proof.
  apply (map_fold_weak_ind
           (λ r m', r !! key =
              match m' !! key with
              | Some d => if bool_decide (expires d < now) then None else acc !! key
              | None => acc !! key
              end)).
  - by rewrite lookup_empty.
  - intros i d m' r Hi IH. destruct (decide (i = key)) as [->|Hne].
    + rewrite lookup_insert_eq. rewrite Hi in IH.
      case_bool_decide; [by rewrite lookup_delete_eq|done].
    + rewrite lookup_insert_ne by done.
      case_bool_decide; [by rewrite lookup_delete_ne|done].
Qed.

Lemma sweep_lookup now w key :
  tokenStore (sweep now w) !! key =
    match tokenStore w !! key with
    | Some d => if bool_decide (expires d < now) then None else Some d
    | None => None
    end.
Proof.
  unfold sweep. cbn [tokenStore]. rewrite sweep_fold_lookup.
  destruct (tokenStore w !! key) as [d|] eqn:Hd; by rewrite ?Hd.
Qed.

Lemma sweep_drawn now w : drawn (sweep now w) = drawn w.
Proof. done. Qed.

Lemma is_safe_false m : m ∉ safe_methods ↔ is_safe m = false.
Proof. unfold is_safe. by rewrite bool_decide_eq_false. Qed.

Lemma is_safe_true m : m ∈ safe_methods ↔ is_safe m = true.
Proof. unfold is_safe. by rewrite bool_decide_eq_true. Qed.

Lemma failure_cause_rejected now req w :
  is_safe (method req) = false →
  failure_cause req w ↔ rejected (csrfProtection now req w).
Proof.
  intros Hm. rewrite rejected_not_ok, (unsafe_passes _ _ _ Hm).
  unfold failure_cause. split.
  - intros [H|[H|(sid & cand & Hs & Hc & H)]] (sid' & d' & Hs' & Hd' & Hc');
      [congruence..|].
    rewrite Hs in Hs'. rewrite Hc in Hc'. simplify_eq.
    destruct H as [H|(d & Hd & Hne)]; congruence.
  - intros Hno.
    destruct (nonempty (sessionId_of req)) as [sid|] eqn:Hs; [|by left].
    destruct (nonempty (tokenFromRequest req)) as [cand|] eqn:Hc;
      [|by right; left].
    right; right. exists sid, cand. split_and!; [done..|].
    destruct (tokenStore w !! sid) as [d|] eqn:Hd; [|by left].
    right. exists d. split; [done|]. intros <-. apply Hno. by exists sid, d.
Qed.

(** *** Expiry (C1) *)

(** Validation does not read [expires]: with another expiry time in the
    record of the session key the request fares the same. *)
Lemma expires_is_not_read now req w sid d e :
  is_safe (method req) = false →
  tokenStore w !! sid = Some d →
  next (csrfProtection now req
          (mkWorld (<[sid := mkTokenData (token d) e]> (tokenStore w)) (drawn w))) =
  next (csrfProtection now req w).
Proof.
  intros Hm Hd. rewrite !(csrfProtection_unsafe _ _ _ Hm). cbn [tokenStore].
  destruct (nonempty (sessionId_of req)) as [sid'|]; [|done].
  destruct (nonempty (tokenFromRequest req)) as [cand|]; [|done].
  destruct (decide (sid = sid')) as [<-|Hne].
  - rewrite lookup_insert_eq, Hd. cbn [token].
    by destruct (String.eqb (token d) cand).
  - rewrite lookup_insert_ne by done.
    destruct (tokenStore w !! sid') as [d'|]; [|done].
    by destruct (String.eqb (token d') cand).
Qed.


(** *** Rotation (C2) *)

Lemma consumed_issue now sid T sid' n w :
  (drawn w ≤ n)%nat →
  consumed sid T w →
  consumed sid T (world (issue now sid' (randomHex (drawn w))
                               (mkWorld (tokenStore w) (S n)))).
Proof.
  intros Hn [Hrec Hfresh]. split; cbn.
  - intros d. destruct (decide (sid' = sid)) as [->|Hne].
    + rewrite lookup_insert_eq. intros [= <-]. cbn. by apply Hfresh.
    + rewrite lookup_insert_ne by done. apply Hrec.
  - intros m Hm. apply Hfresh. lia.
Qed.

Lemma consumed_step sid T w ev :
  consumed sid T w → consumed sid T (step w ev).
Proof.
  intros Hc. destruct ev as [now req|now]; cbn.
  - destruct (is_safe (method req)) eqn:Hm.
    + rewrite (csrfProtection_safe _ _ _ Hm).
      destruct (nonempty (sessionId_of req));
        apply consumed_issue; auto with lia.
    + rewrite (csrfProtection_unsafe _ _ _ Hm).
      destruct (nonempty (sessionId_of req)) as [s|]; [|done].
      destruct (nonempty (tokenFromRequest req)) as [c|]; [|done].
      destruct (tokenStore w !! s) as [d|]; [|done].
      destruct (String.eqb (token d) c); [|done].
      apply consumed_issue; auto with lia.
  - destruct Hc as [Hrec Hfresh]. split; [|done].
    intros d. rewrite sweep_lookup.
    destruct (tokenStore w !! sid) as [d'|] eqn:Hd; [|done].
    case_bool_decide; [done|]. intros [= <-]. by apply Hrec.
Qed.

Lemma consumed_run sid T evs w :
  consumed sid T w → consumed sid T (run evs w).
Proof.
  revert w. induction evs as [|ev evs IH]; intros w Hc; [done|].
  cbn. apply IH. by apply consumed_step.
Qed.


(** *** Safe requests (C3) *)

(** C3: a GET, HEAD or OPTIONS request always reaches [next()], whatever
    the store holds and whatever token it carries; the token just
    generated is stored under the session key (the resolved one, or a
    generated one when none resolves) and is the value of the csrf-token
    cookie. *)
Theorem safe_request_proceeds now req w :
  method req ∈ safe_methods →
  let tok := randomHex (drawn w) in
  let sid := default (randomHex (S (drawn w))) (nonempty (sessionId_of req)) in
  let o := csrfProtection now req w in
  next o = NextOk ∧
  tokenStore (world o) = <[sid := mkTokenData tok (now + HOUR)]> (tokenStore w) ∧
  set_cookie o = Some (csrf_cookie NODE_ENV tok) ∧
  cookie_name (csrf_cookie NODE_ENV tok) = "csrf-token"%string ∧
  cookie_value (csrf_cookie NODE_ENV tok) = tok ∧
  locals_csrfToken o = Some tok.
Proof.
  intros Hm%is_safe_true. cbn zeta.
  rewrite (csrfProtection_safe _ _ _ Hm).
  by destruct (nonempty (sessionId_of req)).
Qed.

(** *** Missing session key (C4) *)

Lemma no_session_key_rejects now req w :
  is_safe (method req) = false →
  truthy (sessionId_of req) = false →
  csrfProtection now req w = reject "CSRF token missing" w.
Proof.
  intros Hm Hs%nonempty_None.
  by rewrite (csrfProtection_unsafe _ _ _ Hm), Hs.
Qed.

(** C4: an unsafe request with neither [req.sessionID] nor a [sessionId]
    cookie is rejected, whatever candidate token it carries and whatever
    the store holds. *)
Theorem missing_session_key_rejects now req w :
  method req ∉ safe_methods →
  sessionID req = None →
  cookie_sessionId req = None →
  rejected (csrfProtection now req w) ∧
  csrfProtection now req w = reject "CSRF token missing" w.
Proof.
  intros Hm%is_safe_false Hs Hc.
  assert (csrfProtection now req w = reject "CSRF token missing" w) as ->.
  { apply no_session_key_rejects; [done|].
    unfold sessionId_of, Js.or. by rewrite Hs, Hc. }
  split; [|done]. by eexists.
Qed.

(** *** Where the candidate comes from (C5) *)


(** *** Exact comparison (C6) *)

(** C6: with a record stored for the session key, a candidate that is not
    the very string stored is rejected, and a request that passes carries
    exactly the stored string; the strings are compared as they are. *)
Theorem exact_match_only now req w :
  method req ∉ safe_methods →
  (∀ sid d cand,
     sessionId_of req = Some sid →
     tokenStore w !! sid = Some d →
     tokenFromRequest req = Some cand →
     cand ≠ token d →
     rejected (csrfProtection now req w)) ∧
  (next (csrfProtection now req w) = NextOk →
   ∃ sid d, sessionId_of req = Some sid ∧
            tokenStore w !! sid = Some d ∧
            tokenFromRequest req = Some (token d)).
Proof.
  intros Hm%is_safe_false. split.
  - intros sid d cand Hs Hd Hc Hne. apply rejected_not_ok.
    intros (sid' & d' & [Hs' _]%nonempty_Some & Hd' & [Hc' _]%nonempty_Some)%unsafe_passes;
      [|done].
    congruence.
  - intros (sid & d & [Hs _]%nonempty_Some & Hd & [Hc _]%nonempty_Some)%unsafe_passes;
      [|done].
    by exists sid, d.
Qed.

(** *** The error (C7) *)

Lemma csrfErrorHandler_csrf_error msg r :
  csrfErrorHandler (csrf_error msg) r =
  csrfErrorHandler (csrf_error "CSRF token missing") r.
Proof. done. Qed.

(** C7: an unsafe request fails exactly when the session key is missing,
    the candidate is missing, no record is stored or the candidate differs
    from the stored token; every such failure passes on an error with code
    EBADCSRFTOKEN and status 403, which [csrfErrorHandler] answers with status
    403; any two such errors agree in code and status and are answered
    alike. *)
Theorem failure_is_EBADCSRFTOKEN now req w :
  method req ∉ safe_methods →
  (failure_cause req w ↔ rejected (csrfProtection now req w)) ∧
  (∀ e, next (csrfProtection now req w) = NextError e →
        code e = Some "EBADCSRFTOKEN"%string ∧
        statusCode e = 403 ∧
        (∀ r, status_of (csrfErrorHandler e r) = Some 403) ∧
        ∀ now' req' w' e',
          method req' ∉ safe_methods →
          next (csrfProtection now' req' w') = NextError e' →
          code e' = code e ∧ statusCode e' = statusCode e ∧
          ∀ r, csrfErrorHandler e' r = csrfErrorHandler e r).
Proof.
  intros Hm%is_safe_false. split; [by apply failure_cause_rejected|].
  assert (∀ now req w e,
            is_safe (method req) = false →
            next (csrfProtection now req w) = NextError e →
            ∃ msg, e = csrf_error msg) as Hshape.
  { clear. intros now req w e Hm.
    destruct (unsafe_outcome now req w Hm) as [->|[->| ->]];
      [done|intros [= <-]; by eexists..]. }
  intros e [msg ->]%Hshape; [|done]. split_and!; [done|done| |].
  { intros r. unfold csrfErrorHandler. cbn.
    by destruct (xhr r || accepts_json r). }
  intros now' req' w' e' Hm'%is_safe_false [msg' ->]%Hshape; [|done].
  split_and!; [done..|]. intros r. by rewrite !(csrfErrorHandler_csrf_error _ r).
Qed.

(** *** Failure changes nothing (C9) *)

(** C9: a rejected unsafe request leaves the token store (and the module
    state as a whole) as it was and sets no cookie. *)
Theorem failure_is_atomic now req w :
  method req ∉ safe_methods →
  rejected (csrfProtection now req w) →
  world (csrfProtection now req w) = w ∧
  tokenStore (world (csrfProtection now req w)) = tokenStore w ∧
  set_cookie (csrfProtection now req w) = None ∧
  locals_csrfToken (csrfProtection now req w) = None.
Proof.
  intros Hm%is_safe_false Hrej%rejected_not_ok.
  destruct (unsafe_outcome now req w Hm) as [Hok|[->| ->]]; done.
Qed.

End Guard.

(** *** The theorems at concrete requests *)

Abbreviation guard := (csrfProtection sample_hex None).

Lemma POST_unsafe : "POST"%string ∉ safe_methods.
Proof. apply (bool_decide_eq_false_1 _). reflexivity. Defined.

Lemma GET_safe : "GET"%string ∈ safe_methods.
Proof. apply (bool_decide_eq_true_1 _). reflexivity. Defined.




Lemma safe_request_proceeds_witness :
  next (guard 10 (sample_request "GET" (Some "S1"%string) None None None)
              (sample_world "S1" "T0" 5)) = NextOk.
Proof.
  apply (safe_request_proceeds sample_hex None 10
           (sample_request "GET" (Some "S1"%string) None None None)
           (sample_world "S1" "T0" 5) GET_safe).
Defined.

(** The token presented is the one stored for another session. *)
Lemma missing_session_key_rejects_witness :
  rejected (guard 10 (sample_request "POST" None None (Some "T1"%string) None)
                  (sample_world "S1" "T1" 1000)).
Proof.
  apply (missing_session_key_rejects sample_hex None 10
           (sample_request "POST" None None (Some "T1"%string) None)
           (sample_world "S1" "T1" 1000) POST_unsafe eq_refl eq_refl).
Defined.



(** A candidate that differs from the stored token by letter case only. *)
Lemma exact_match_only_witness :
  rejected (guard 10 (post_header "S1" "ABCDEF") (sample_world "S1" "abcdef" 1000)).
Proof.
  apply (proj1 (exact_match_only sample_hex None 10 (post_header "S1" "ABCDEF")
                  (sample_world "S1" "abcdef" 1000) POST_unsafe)
           "S1"%string (mkTokenData "abcdef" 1000) "ABCDEF"%string);
    [reflexivity|reflexivity|reflexivity|discriminate].
Defined.

Lemma failure_is_EBADCSRFTOKEN_witness :
  failure_cause (post_header "S2" "T1") (sample_world "S1" "T1" 1000) ↔
  rejected (guard 10 (post_header "S2" "T1") (sample_world "S1" "T1" 1000)).
Proof.
  apply (proj1 (failure_is_EBADCSRFTOKEN sample_hex None 10 (post_header "S2" "T1")
                  (sample_world "S1" "T1" 1000) POST_unsafe)).
Defined.

Lemma failure_is_atomic_witness :
  world (guard 10 (post_header "S1" "T9") (sample_world "S1" "T1" 1000)) =
  sample_world "S1" "T1" 1000.
Proof.
  apply (failure_is_atomic sample_hex None 10 (post_header "S1" "T9")
           (sample_world "S1" "T1" 1000) POST_unsafe).
  eexists. reflexivity.
Defined.

End CsrfFacts.

(** ** The MongoDB key sanitizer *)

Module MongoSanitizeFacts.
Import Js MongoSanitize.

(** *** Keys *)

Lemma prefix_char a c s : String.prefix (String a EmptyString) (String c s) = Ascii.eqb c a.
Proof.
  change (String.prefix (String a EmptyString) (String c s))
    with (if Ascii.ascii_dec a c then String.prefix EmptyString s else false).
  destruct (Ascii.ascii_dec a c) as [<-|Hne].
  - rewrite Ascii.eqb_refl. by destruct s.
  - symmetry. apply Ascii.eqb_neq. congruence.
Qed.

Lemma includes_dot_cons c s :
  includes "." (String c s) = Ascii.eqb c "." || includes "." s.
Proof. cbn [includes]. by rewrite (prefix_char "." c s). Qed.

Lemma replace_dots_no_dot s : includes "." (replace_dots "_" s) = false.
Proof.
  induction s as [|c s IH]; [done|]. cbn [replace_dots].
  destruct (Ascii.eqb c ".") eqn:Hc.
  - change ("_" +:+ replace_dots "_" s) with (String "_" (replace_dots "_" s)).
    by rewrite includes_dot_cons, IH.
  - by rewrite includes_dot_cons, Hc, IH.
Qed.

Lemma startsWith_dollar c s : startsWith "$" (String c s) = Ascii.eqb c "$".
Proof. apply (prefix_char "$" c s). Qed.

Lemma replace_dots_head c s :
  Ascii.eqb c "$" = false →
  startsWith "$" (replace_dots "_" (String c s)) = false.
Proof.
  intros Hc. cbn [replace_dots]. destruct (Ascii.eqb c "."); [done|].
  by rewrite startsWith_dollar.
Qed.

(** The key that replaces a forbidden one is not forbidden. *)
Lemma replace_forbidden_clean key : forbidden (replace_forbidden "_" key) = false.
Proof.
  unfold forbidden. destruct key as [|c s]; [done|]. cbn [replace_forbidden].
  destruct (Ascii.eqb c "$") eqn:Hc.
  - change ("_" +:+ replace_dots "_" s) with (String "_" (replace_dots "_" s)).
    by rewrite includes_dot_cons, replace_dots_no_dot.
  - by rewrite replace_dots_head, replace_dots_no_dot.
Qed.

Lemma forbidden_spec key :
  forbidden key = false ↔ startsWith "$" key = false ∧ includes "." key = false.
Proof. unfold forbidden. apply orb_false_iff. Qed.

(** *** Own properties behave as a map *)

Lemma get_prop_set key v props k :
  get_prop k (set_prop key v props) =
  if String.eqb key k then Some v else get_prop k props.
Proof.
  induction props as [|[k0 v0] props IH]; cbn.
  - done.
  - destruct (String.eqb_spec k0 key) as [->|Hne]; cbn;
      [by destruct (String.eqb key k)|].
    rewrite IH.
    destruct (String.eqb_spec k0 k), (String.eqb_spec key k); congruence.
Qed.

Lemma get_prop_delete key props k :
  get_prop k (delete_prop key props) =
  if String.eqb key k then None else get_prop k props.
Proof.
  induction props as [|[k0 v0] props IH]; cbn.
  - by destruct (String.eqb key k).
  - destruct (String.eqb_spec k0 key) as [->|Hne]; cbn; rewrite IH.
    + by destruct (String.eqb key k).
    + destruct (String.eqb_spec k0 k), (String.eqb_spec key k); congruence.
Qed.

Lemma get_prop_keys key props :
  key ∈ props.*1 ↔ is_Some (get_prop key props).
Proof.
  induction props as [|[k0 v0] props IH]; cbn.
  - split; [by intros ?%elem_of_nil|by intros [? ?]].
  - rewrite elem_of_cons, IH. destruct (String.eqb_spec k0 key) as [->|Hne].
    + split; eauto.
    + split; [intros [?|?]; [congruence|done]|by right].
Qed.

Lemma keys_set_prop key v props k :
  k ∈ (set_prop key v props).*1 ↔ k = key ∨ k ∈ props.*1.
Proof.
  rewrite !get_prop_keys, get_prop_set.
  destruct (String.eqb_spec key k) as [->|Hne]; split; eauto.
  intros [?|?]; [congruence|done].
Qed.

Lemma keys_delete_prop key props k :
  k ∈ (delete_prop key props).*1 ↔ k ≠ key ∧ k ∈ props.*1.
Proof.
  rewrite !get_prop_keys, get_prop_delete.
  destruct (String.eqb_spec key k) as [->|Hne]; split.
  - by intros [? ?].
  - by intros [? _].
  - intros ?. split; [congruence|done].
  - by intros [_ ?].
Qed.

(** *** Writes keep the objects where they are *)

Lemma own_props_Some σ l props :
  own_props σ l = Some props ↔ heap σ !! l = Some (Object props).
Proof.
  unfold own_props. destruct (heap σ !! l) as [[ps|vs]|]; split; congruence.
Qed.

Lemma same_objects_refl h : same_objects h h.
Proof. by split. Qed.

Lemma same_objects_trans h1 h2 h3 :
  same_objects h1 h2 → same_objects h2 h3 → same_objects h1 h3.
Proof.
  intros [Ho1 Ha1] [Ho2 Ha2]. split.
  - intros l. by rewrite Ho1, Ho2.
  - eauto.
Qed.

Lemma same_objects_write (h : gmap loc cell) l props props' :
  h !! l = Some (Object props) →
  same_objects h (<[l := Object props']> h).
Proof.
  intros Hl. split.
  - intros m. unfold is_object. destruct (decide (l = m)) as [<-|Hne].
    + rewrite lookup_insert_eq. split; eauto.
    + by rewrite lookup_insert_ne.
  - intros m vs Hm. rewrite lookup_insert_ne; [done|]. congruence.
Qed.

Lemma same_objects_alloc (h : gmap loc cell) l elems :
  h !! l = None →
  same_objects h (<[l := Array elems]> h).
Proof.
  intros Hl. split.
  - intros m. unfold is_object. destruct (decide (l = m)) as [<-|Hne].
    + rewrite lookup_insert_eq, Hl. split; intros [? ?]; congruence.
    + by rewrite lookup_insert_ne.
  - intros m vs Hm. rewrite lookup_insert_ne; [done|]. congruence.
Qed.

Lemma fresh_heap (h : gmap loc cell) : h !! fresh (dom h) = None.
Proof. apply not_elem_of_dom, is_fresh. Qed.

Section Shape.

Variable replaceWith : string.
Variable onSanitize : bool.
Variable accessor_hit : nat → bool.

Abbreviation assign := (assign accessor_hit).
Abbreviation clean_key := (clean_key replaceWith onSanitize accessor_hit).
Abbreviation clean_keys := (clean_keys replaceWith onSanitize accessor_hit).
Abbreviation clean := (clean replaceWith onSanitize accessor_hit).

(** What [assign] leaves in the heap: the object as it was, when the
    accessor takes the assignment, or the object with the property set. *)
Lemma assign_heap l key v σ :
  heap (assign l key v σ) = heap σ ∨
  ∃ props, heap σ !! l = Some (Object props) ∧
           heap (assign l key v σ) = <[l := Object (set_prop key v props)]> (heap σ).
Proof.
  unfold MongoSanitize.assign. destruct (own_props σ l) as [props|] eqn:Hl; [|by left].
  apply own_props_Some in Hl.
  destruct (String.eqb key "__proto__" && negb (has_own key props));
    [destruct (accessor_hit (proto_writes σ)); [by left|]|]; right; eauto.
Qed.

Lemma delete_key_heap l key σ :
  heap (delete_key l key σ) = heap σ ∨
  ∃ props, heap σ !! l = Some (Object props) ∧
           heap (delete_key l key σ) = <[l := Object (delete_prop key props)]> (heap σ).
Proof.
  unfold delete_key. destruct (own_props σ l) as [props|] eqn:Hl; [|by left].
  apply own_props_Some in Hl. right; eauto.
Qed.

(** The heap after [delete value[key]; value[newKey] = v], or after
    [value[key] = v]: the object at [l] holds the new property, or not even
    that, and otherwise what it held. *)
Lemma assign_props l key v σ props :
  heap σ !! l = Some (Object props) →
  ∃ props', heap (assign l key v σ) = <[l := Object props']> (heap σ) ∧
    ∀ k x, get_prop k props' = Some x →
           (k = key ∧ x = v) ∨ get_prop k props = Some x.
Proof.
  intros Hl. destruct (assign_heap l key v σ)
    as [->|(props0 & Hl0 & ->)].
  - exists props. split; [by rewrite insert_id|auto].
  - rewrite Hl in Hl0. simplify_eq. eexists. split; [done|].
    intros k x. rewrite get_prop_set.
    destruct (String.eqb_spec key k) as [->|]; [|auto]. intros [= ->]. auto.
Qed.

Lemma delete_key_props l key σ props :
  heap σ !! l = Some (Object props) →
  heap (delete_key l key σ) = <[l := Object (delete_prop key props)]> (heap σ).
Proof.
  intros Hl. unfold delete_key.
  by rewrite (proj2 (own_props_Some σ l props) Hl).
Qed.

(** [assign] sets the property, unless the key is [__proto__], the object
    has no such property and the accessor takes the assignment. *)
Lemma assign_set_or_absorbed l key v σ props :
  heap σ !! l = Some (Object props) →
  heap (assign l key v σ) = <[l := Object (set_prop key v props)]> (heap σ) ∨
  (key = "__proto__"%string ∧ heap (assign l key v σ) = heap σ).
Proof.
  intros Hl. unfold MongoSanitize.assign.
  rewrite (proj2 (own_props_Some σ l props) Hl).
  destruct (String.eqb_spec key "__proto__") as [->|Hne]; cbn [andb]; [|by left].
  destruct (negb (has_own "__proto__" props)); [|by left].
  destruct (accessor_hit (proto_writes σ)); [by right|by left].
Qed.

Lemma assign_same_objects l key v σ :
  same_objects (heap σ) (heap (assign l key v σ)).
Proof.
  destruct (assign_heap l key v σ) as [->|(props & Hl & ->)].
  - apply same_objects_refl.
  - by eapply same_objects_write.
Qed.

Lemma delete_key_same_objects l key σ :
  same_objects (heap σ) (heap (delete_key l key σ)).
Proof.
  destruct (delete_key_heap l key σ) as [->|(props & Hl & ->)].
  - apply same_objects_refl.
  - by eapply same_objects_write.
Qed.

Section Loops.

Variable rec : Store → value → option (Store * value).
Hypothesis rec_shape :
  ∀ σ v σ' v', rec σ v = Some (σ', v') → same_objects (heap σ) (heap σ').

Lemma clean_key_shape l key σ σ' :
  clean_key rec l key σ = Some σ' → same_objects (heap σ) (heap σ').
Proof.
  unfold MongoSanitize.clean_key. intros H.
  destruct (own_props σ l) as [props|]; [|done].
  destruct (get_prop key props) as [v|]; [|simplify_eq; apply same_objects_refl].
  destruct (rec _ v) as [[σ2 cv]|] eqn:Hrec; [|done].
  apply rec_shape in Hrec.
  assert (same_objects (heap σ) (heap σ2)) as Hs.
  { by destruct (forbidden key && onSanitize). }
  destruct (forbidden key).
  - simplify_eq. eapply same_objects_trans; [done|].
    eapply same_objects_trans;
      [apply delete_key_same_objects|apply assign_same_objects].
  - destruct (negb (strict_eq (read_prop l key σ2) cv)); simplify_eq; [|done].
    eapply same_objects_trans; [done|apply assign_same_objects].
Qed.

Lemma clean_keys_shape l keys σ σ' :
  clean_keys rec l keys σ = Some σ' → same_objects (heap σ) (heap σ').
Proof.
  revert σ. induction keys as [|key keys IH]; intros σ H; cbn in H.
  - simplify_eq. apply same_objects_refl.
  - destruct (clean_key rec l key σ) as [σ1|] eqn:H1; [|done].
    eapply same_objects_trans; [by eapply clean_key_shape|by apply IH].
Qed.

Lemma clean_elems_shape elems σ σ' elems' :
  clean_elems rec elems σ = Some (σ', elems') →
  same_objects (heap σ) (heap σ').
Proof.
  revert σ elems'. induction elems as [|v elems IH]; intros σ elems' H; cbn in H.
  - simplify_eq. apply same_objects_refl.
  - destruct (rec σ v) as [[σ1 v1]|] eqn:H1; [|done].
    destruct (clean_elems rec elems σ1) as [[σ2 vs2]|] eqn:H2; [|done].
    simplify_eq. eapply same_objects_trans; [by eapply rec_shape|by eapply IH].
Qed.

End Loops.

Lemma clean_ref fuel σ l :
  clean (S fuel) σ (VRef l) =
  match heap σ !! l with
  | Some (Array elems) =>
    match clean_elems (clean fuel) elems σ with
    | None => None
    | Some (σ', elems') =>
      Some (write_cell (fresh (dom (heap σ'))) (Array elems') σ',
            VRef (fresh (dom (heap σ'))))
    end
  | Some (Object props) =>
    match clean_keys (clean fuel) l props.*1 σ with
    | None => None
    | Some σ' => Some (σ', VRef l)
    end
  | None => None
  end.
Proof. done. Qed.

(** [clean] allocates arrays only: the objects after the call are the
    objects before it, and the arrays that were there are untouched. *)
Lemma clean_same_objects fuel σ v σ' v' :
  clean fuel σ v = Some (σ', v') → same_objects (heap σ) (heap σ').
Proof.
  revert σ v σ' v'. induction fuel as [|fuel IH]; intros σ v σ' v' H; [done|].
  cbn in H. destruct v as [| | | | |l]; simplify_eq; try apply same_objects_refl.
  destruct (heap σ !! l) as [[props|elems]|] eqn:Hl; [| |done].
  - destruct (clean_keys _ l _ σ) as [σ1|] eqn:H1; [|done]. simplify_eq.
    by eapply clean_keys_shape.
  - destruct (clean_elems _ elems σ) as [[σ1 vs1]|] eqn:H1; [|done]. simplify_eq.
    eapply same_objects_trans; [by eapply clean_elems_shape|].
    apply same_objects_alloc, fresh_heap.
Qed.

(** An object is handed back as the reference that was passed in. *)
Lemma clean_object_returns_argument fuel σ l props σ' v' :
  heap σ !! l = Some (Object props) →
  clean fuel σ (VRef l) = Some (σ', v') → v' = VRef l.
Proof.
  intros Hl H. destruct fuel as [|fuel]; [done|]. cbn in H. rewrite Hl in H.
  destruct (clean_keys _ l _ σ); by simplify_eq.
Qed.

(** An array is copied: the result is a reference that was not in use. *)
Lemma clean_array_returns_copy fuel σ l elems σ' v' :
  heap σ !! l = Some (Array elems) →
  clean fuel σ (VRef l) = Some (σ', v') →
  ∃ l' elems', v' = VRef l' ∧ l' ≠ l ∧ heap σ !! l' = None ∧
               heap σ' !! l' = Some (Array elems') ∧
               heap σ' !! l = Some (Array elems).
Proof.
  intros Hl H. pose proof (clean_same_objects _ _ _ _ _ H) as [_ Harr].
  destruct fuel as [|fuel]; [done|]. cbn in H. rewrite Hl in H.
  destruct (clean_elems _ elems σ) as [[σ1 vs1]|] eqn:H1; [|done]. simplify_eq.
  apply clean_elems_shape in H1 as [Hobj1 Harr1]; [|apply clean_same_objects].
  pose proof (fresh_heap (heap σ1)) as Hfresh.
  exists (fresh (dom (heap σ1))), vs1. split_and!.
  - done.
  - intros Heq. apply Harr1 in Hl. congruence.
  - destruct (heap σ !! fresh (dom (heap σ1))) as [[ps|vs]|] eqn:Hold; [| |done].
    + assert (is_object (heap σ1) (fresh (dom (heap σ1)))) as [? ?];
        [apply Hobj1; by eexists|congruence].
    + apply Harr1 in Hold. congruence.
  - cbn. by rewrite lookup_insert_eq.
  - by apply Harr.
Qed.

(** A value that is not a reference comes back as it is, and nothing is
    written. *)
Lemma clean_primitive fuel σ v :
  is_ref v = false → clean (S fuel) σ v = Some (σ, v).
Proof. by destruct v. Qed.

End Shape.

(** *** No forbidden key survives *)

Lemma val_in_mono G G' v : G ⊆ G' → val_in G v → val_in G' v.
Proof. destruct v; cbn; set_solver. Qed.

Lemma evolves_refl G h : evolves G h h.
Proof.
  split; [apply same_objects_refl|]. intros l props props' H1 H2. simplify_eq. auto.
Qed.

Lemma evolves_mono G G' h h' : G ⊆ G' → evolves G h h' → evolves G' h h'.
Proof.
  intros HG [Hs Hp]. split; [done|]. intros l props props' H1 H2 key v Hv.
  destruct (Hp l props props' H1 H2 key v Hv) as [?|[? ?]]; [by left|right].
  eauto using val_in_mono.
Qed.

Lemma evolves_trans G h1 h2 h3 :
  evolves G h1 h2 → evolves G h2 h3 → evolves G h1 h3.
Proof.
  intros [Hs1 Hp1] [Hs2 Hp2]. split; [by eapply same_objects_trans|].
  intros l props1 props3 H1 H3 key v Hv.
  destruct (proj1 (proj1 Hs1 l)) as [props2 H2]; [by eexists|].
  destruct (Hp2 l props2 props3 H2 H3 key v Hv) as [Hv2|?]; [|by right].
  by apply (Hp1 l props1 props2 H1 H2).
Qed.

Lemma certified_mono_heap G (h h' : gmap loc cell) :
  certified h G → (∀ l, l ∈ G → h' !! l = h !! l) → certified h' G.
Proof.
  intros Hc Heq l Hl. destruct (Hc l Hl) as (c & Hlc & ?). exists c.
  by rewrite Heq.
Qed.

(** Replacing the properties of an object by properties that are either old
    or clean keeps a certified set certified. *)
Lemma certified_write G (h : gmap loc cell) l props props' :
  certified h G →
  h !! l = Some (Object props) →
  (∀ key v, get_prop key props' = Some v →
            (forbidden key = false ∧ val_in G v) ∨ get_prop key props = Some v) →
  certified (<[l := Object props']> h) G ∧
  evolves G h (<[l := Object props']> h).
Proof.
  intros Hc Hl Hnew. split.
  - intros m Hm. destruct (decide (l = m)) as [<-|Hne].
    + rewrite lookup_insert_eq. eexists. split; [done|].
      destruct (Hc l Hm) as (c & Hlc & Hk & Hv). rewrite Hl in Hlc. simplify_eq.
      split.
      * intros key [v Hkv]%get_prop_keys.
        destruct (Hnew key v Hkv) as [[? _]|Hold]; [done|].
        apply Hk, get_prop_keys. eauto.
      * intros v [key Hkv]. destruct (Hnew key v Hkv) as [[_ ?]|Hold]; [done|].
        apply Hv. by exists key.
    + rewrite lookup_insert_ne by done. apply Hc, Hm.
  - split; [by eapply same_objects_write|].
    intros m ps ps' H1 H2 key v Hv. destruct (decide (l = m)) as [<-|Hne].
    + rewrite lookup_insert_eq in H2. simplify_eq.
      destruct (Hnew key v Hv); auto.
    + rewrite lookup_insert_ne in H2 by done. simplify_eq. auto.
Qed.

Lemma certified_reach G h v m :
  certified h G → val_in G v → reach h v m → m ∈ G.
Proof.
  intros Hc Hv Hr. induction Hr as [l|l c v m Hl Hmem Hr IH]; [done|].
  apply IH. destruct (Hc l Hv) as (c' & Hl' & _ & Hmems).
  rewrite Hl in Hl'. simplify_eq. by apply Hmems.
Qed.

Section Sound.

Variable onSanitize : bool.
Variable accessor_hit : nat → bool.

Abbreviation assign := (assign accessor_hit).
Abbreviation clean_key := (clean_key "_" onSanitize accessor_hit).
Abbreviation clean_keys := (clean_keys "_" onSanitize accessor_hit).
Abbreviation clean := (clean "_" onSanitize accessor_hit).

Section Loops.

Variable rec : Store → value → option (Store * value).
Hypothesis rec_sound :
  ∀ σ v σ' v' G,
    rec σ v = Some (σ', v') → certified (heap σ) G →
    ∃ G', G ⊆ G' ∧ certified (heap σ') G' ∧ val_in G' v ∧ val_in G' v' ∧
          evolves G' (heap σ) (heap σ').

Lemma clean_key_sound l key rest σ σ' G :
  clean_key rec l key σ = Some σ' →
  certified (heap σ) G →
  visited_but (key :: rest) G σ l →
  ∃ G', G ⊆ G' ∧ certified (heap σ') G' ∧ visited_but rest G' σ' l ∧
        evolves G' (heap σ) (heap σ').
Proof.
  unfold MongoSanitize.clean_key. intros H Hc Hvis.
  destruct (own_props σ l) as [props|] eqn:Hown; [|done].
  destruct (get_prop key props) as [v|] eqn:Hget.
  2:{ simplify_eq. exists G. split_and!; [done|done| |apply evolves_refl].
      intros ps k x Hps Hk. rewrite Hown in Hps. simplify_eq.
      destruct (Hvis ps k x Hown Hk) as [[->|?]%elem_of_cons|?]; auto.
      congruence. }
  destruct (rec _ v) as [[σ2 cv]|] eqn:Hrec; [|done].
  apply (rec_sound _ _ _ _ G) in Hrec as (G1 & HG & Hc1 & Hv & Hcv & Hev);
    [|by destruct (forbidden key && onSanitize)].
  assert (evolves G1 (heap σ) (heap σ2)) as Hev'
    by (by destruct (forbidden key && onSanitize)).
  clear Hev. apply own_props_Some in Hown.
  destruct (proj1 (proj1 (proj1 Hev') l)) as [props2 Hl2]; [by eexists|].
  pose proof (proj2 Hev' l props props2 Hown Hl2) as Hprov.
  (* both branches write properties that are old or clean *)
  assert (∃ props',
            heap σ' = <[l := Object props']> (heap σ2) ∧
            ∀ k x, get_prop k props' = Some x →
                   (forbidden k = false ∧ val_in G1 x) ∨
                   (get_prop k props2 = Some x ∧ (k = key → forbidden key = false)))
    as (props' & Hheap & Hnew).
  { destruct (forbidden key) eqn:Hf.
    - simplify_eq.
      pose proof (delete_key_props l key σ2 props2 Hl2) as Hdel.
      destruct (assign_props accessor_hit l (replace_forbidden "_" key) cv (delete_key l key σ2)
                  (delete_prop key props2)) as (props' & Heq & Hp).
      { by rewrite Hdel, lookup_insert_eq. }
      exists props'. split; [by rewrite Heq, Hdel, insert_insert_eq|].
      intros k x Hk. destruct (Hp k x Hk) as [[-> ->]|Hold].
      + left. split; [apply replace_forbidden_clean|done].
      + rewrite get_prop_delete in Hold.
        destruct (String.eqb_spec key k) as [->|Hne]; [done|].
        right. split; [done|congruence].
    - destruct (negb (strict_eq (read_prop l key σ2) cv)); simplify_eq.
      + destruct (assign_props accessor_hit l key cv σ2 props2 Hl2) as (props' & Heq & Hp).
        exists props'. split; [done|]. intros k x Hk.
        destruct (Hp k x Hk) as [[-> ->]|Hold]; auto.
      + exists props2. split; [by rewrite insert_id|]. auto. }
  destruct (certified_write G1 (heap σ2) l props2 props' Hc1 Hl2) as [Hc' Hev2].
  { intros k x Hk. destruct (Hnew k x Hk) as [?|[? _]]; auto. }
  rewrite <-Hheap in Hc', Hev2.
  exists G1. split_and!; [done|done| |by eapply evolves_trans].
  intros ps k x Hps Hk. apply own_props_Some in Hps.
  rewrite Hheap, lookup_insert_eq in Hps. simplify_eq.
  destruct (Hnew k x Hk) as [?|[Hold Hkey]]; [by right|].
  destruct (Hprov k x Hold) as [Horig|?]; [|by right].
  destruct (decide (k = key)) as [->|Hne].
  - right. split; [by apply Hkey|]. rewrite Hget in Horig. by simplify_eq.
  - apply own_props_Some in Hown.
    destruct (Hvis props k x Hown Horig) as [[->|?]%elem_of_cons|[? ?]];
      [done|by left|right]. eauto using val_in_mono.
Qed.

Lemma clean_keys_sound l keys σ σ' G :
  clean_keys rec l keys σ = Some σ' →
  certified (heap σ) G →
  visited_but keys G σ l →
  ∃ G', G ⊆ G' ∧ certified (heap σ') G' ∧ visited_but [] G' σ' l ∧
        evolves G' (heap σ) (heap σ').
Proof.
  revert σ G. induction keys as [|key keys IH]; intros σ G H Hc Hvis; cbn in H.
  - simplify_eq. exists G. split_and!; [done..|apply evolves_refl].
  - destruct (clean_key rec l key σ) as [σ1|] eqn:H1; [|done].
    destruct (clean_key_sound _ _ _ _ _ _ H1 Hc Hvis) as (G1 & HG1 & Hc1 & Hvis1 & Hev1).
    destruct (IH _ _ H Hc1 Hvis1) as (G2 & HG2 & Hc2 & Hvis2 & Hev2).
    exists G2. split_and!; [set_solver|done|done|].
    eapply evolves_trans; [by eapply evolves_mono|done].
Qed.

Lemma clean_elems_sound elems σ σ' elems' G :
  clean_elems rec elems σ = Some (σ', elems') →
  certified (heap σ) G →
  ∃ G', G ⊆ G' ∧ certified (heap σ') G' ∧
        Forall (val_in G') elems ∧ Forall (val_in G') elems' ∧
        evolves G' (heap σ) (heap σ').
Proof.
  revert σ elems' G. induction elems as [|v elems IH]; intros σ elems' G H Hc;
    cbn in H.
  - simplify_eq. exists G. split_and!; [done..|apply evolves_refl].
  - destruct (rec σ v) as [[σ1 v1]|] eqn:H1; [|done].
    destruct (clean_elems rec elems σ1) as [[σ2 vs2]|] eqn:H2; [|done].
    simplify_eq.
    destruct (rec_sound _ _ _ _ _ H1 Hc) as (G1 & HG1 & Hc1 & Hv & Hv1 & Hev1).
    destruct (IH _ _ _ H2 Hc1) as (G2 & HG2 & Hc2 & Hvs & Hvs2 & Hev2).
    exists G2. split_and!; [set_solver|done| | |].
    + constructor; eauto using val_in_mono.
    + constructor; eauto using val_in_mono.
    + eapply evolves_trans; [by eapply evolves_mono|done].
Qed.

End Loops.

(** Every cell that a returning call hands back, and every cell it was
    handed, lies in a certified set; what was certified stays so. *)
Lemma clean_sound fuel σ v σ' v' G :
  clean fuel σ v = Some (σ', v') →
  certified (heap σ) G →
  ∃ G', G ⊆ G' ∧ certified (heap σ') G' ∧ val_in G' v ∧ val_in G' v' ∧
        evolves G' (heap σ) (heap σ').
Proof.
  revert σ v σ' v' G. induction fuel as [|fuel IH]; intros σ v σ' v' G H Hc;
    [done|].
  cbn in H. destruct v as [| | | | |l]; simplify_eq;
    try (exists G; split_and!; [done..|apply evolves_refl]).
  destruct (heap σ !! l) as [[props|elems]|] eqn:Hl; [| |done].
  - destruct (MongoSanitize.clean_keys _ _ _ _ l _ σ) as [σ1|] eqn:H1; [|done].
    simplify_eq.
    destruct (clean_keys_sound _ IH l _ _ _ G H1 Hc) as (G1 & HG & Hc1 & Hvis & Hev).
    { intros ps key v Hps Hk. left. apply own_props_Some in Hps.
      rewrite Hl in Hps. simplify_eq. apply get_prop_keys. eauto. }
    destruct (proj1 (proj1 (proj1 Hev) l)) as [props' Hl']; [by eexists|].
    exists (G1 ∪ {[l]}). split_and!; [set_solver| |set_solver..|].
    + intros m [Hm| ->%elem_of_singleton]%elem_of_union.
      * destruct (Hc1 m Hm) as (c & Hmc & Hk & Hv). exists c.
        split_and!; [done..|]. intros x Hx.
        apply (val_in_mono G1); [apply union_subseteq_l|]. by apply Hv.
      * exists (Object props'). split_and!; [done| |].
        -- intros key [x Hx]%get_prop_keys.
           destruct (Hvis props' key x) as [?%elem_of_nil|[? _]];
             [by apply own_props_Some|done..].
        -- intros x [key Hx].
           destruct (Hvis props' key x) as [?%elem_of_nil|[_ ?]];
             [by apply own_props_Some|done..|].
           apply (val_in_mono G1); [apply union_subseteq_l|done].
    + apply (evolves_mono G1); [apply union_subseteq_l|done].
  - destruct (MongoSanitize.clean_elems _ elems σ) as [[σ1 vs1]|] eqn:H1; [|done].
    simplify_eq.
    destruct (clean_elems_sound _ IH _ _ _ _ G H1 Hc)
      as (G1 & HG & Hc1 & Hvs & Hvs1 & Hev).
    pose proof (fresh_heap (heap σ1)) as Hfresh.
    set (l' := fresh (dom (heap σ1))) in *.
    pose proof (proj2 (proj1 Hev) l elems Hl) as Hl1.
    assert (l ≠ l') as Hne by congruence.
    exists (G1 ∪ {[l; l']}). split_and!; [set_solver| |set_solver..|].
    + intros m Hm. cbn. destruct (decide (m = l')) as [->|Hml'].
      * rewrite lookup_insert_eq. eexists. split_and!; [done..|].
        intros x Hx. cbn in Hx.
        apply (val_in_mono G1); [apply union_subseteq_l|].
        by apply (proj1 (Forall_forall _ _) Hvs1).
      * rewrite lookup_insert_ne by done.
        apply elem_of_union in Hm as [Hm|Hm].
        -- destruct (Hc1 m Hm) as (c & Hmc & Hk & Hv). exists c.
           split_and!; [done..|]. intros x Hx.
           apply (val_in_mono G1); [apply union_subseteq_l|]. by apply Hv.
        -- assert (m = l) as ->.
           { apply elem_of_union in Hm as [?%elem_of_singleton|?%elem_of_singleton];
               congruence. }
           eexists. split_and!; [done..|].
           intros x Hx. cbn in Hx.
           apply (val_in_mono G1); [apply union_subseteq_l|].
           by apply (proj1 (Forall_forall _ _) Hvs).
    + eapply evolves_trans;
        [apply (evolves_mono G1); [apply union_subseteq_l|done]|].
      split; [by apply same_objects_alloc|].
      intros m ps ps' H2 H3 key x Hx. cbn in H3.
      rewrite lookup_insert_ne in H3 by congruence. simplify_eq. auto.
Qed.

(** After a call that returns, no object that can be reached from the result,
    or from the argument, has a forbidden key. *)
Lemma clean_reach_clean fuel σ v σ' v' m props key :
  clean fuel σ v = Some (σ', v') →
  reach (heap σ') v' m ∨ reach (heap σ') v m →
  heap σ' !! m = Some (Object props) →
  key ∈ props.*1 →
  forbidden key = false.
Proof.
  intros H Hr Hm Hkey.
  destruct (clean_sound _ _ _ _ _ ∅ H) as (G & _ & Hc & Hv & Hv' & _);
    [by intros ? ?%elem_of_empty|].
  assert (m ∈ G) as HmG.
  { destruct Hr as [Hr|Hr];
      [apply (certified_reach G (heap σ') v' m)|apply (certified_reach G (heap σ') v m)];
      done. }
  destruct (Hc m HmG) as (c & Hmc & Hk & _). rewrite Hm in Hmc. simplify_eq.
  by apply Hk.
Qed.

End Sound.

(** *** A call on a heap without cycles returns *)

Lemma below_weaken r h b b' v : (b ≤ b')%nat → below r h b v → below r h b' v.
Proof. destruct v; cbn; [done..|]. intros ? [? ?]. split; [done|lia]. Qed.

Lemma rank_extends_refl r h : rank_extends r h r h.
Proof. split; [apply same_objects_refl|done]. Qed.

Lemma rank_extends_trans r1 h1 r2 h2 r3 h3 :
  rank_extends r1 h1 r2 h2 → rank_extends r2 h2 r3 h3 →
  rank_extends r1 h1 r3 h3.
Proof.
  intros [Hs1 He1] [Hs2 He2]. split; [by eapply same_objects_trans|].
  intros l Hl. destruct (He1 l Hl) as [Hl2 Hr2].
  destruct (He2 l Hl2) as [Hl3 Hr3]. split; [done|congruence].
Qed.

Lemma below_extends r h r' h' b v :
  rank_extends r h r' h' → below r h b v → below r' h' b v.
Proof.
  intros [_ He]. destruct v as [| | | | |l]; cbn; [done..|].
  intros [Hl Hr]. destruct (He l Hl) as [? ->]. done.
Qed.

(** Replacing the properties of an object by properties that are old or rank
    below the object keeps the ranking. *)
Lemma ranked_write r (h : gmap loc cell) l props props' :
  ranked r h →
  h !! l = Some (Object props) →
  (∀ key v, get_prop key props' = Some v →
            below r h (r l) v ∨ get_prop key props = Some v) →
  ranked r (<[l := Object props']> h) ∧
  rank_extends r h r (<[l := Object props']> h).
Proof.
  intros Hr Hl Hnew.
  assert (rank_extends r h r (<[l := Object props']> h)) as Hext.
  { split; [by eapply same_objects_write|]. intros m Hm. split; [|done].
    destruct (decide (l = m)) as [<-|?];
      [by rewrite lookup_insert_eq|by rewrite lookup_insert_ne]. }
  split; [|done]. intros m c Hm v Hv. eapply below_extends; [done|].
  destruct (decide (l = m)) as [<-|Hne].
  - rewrite lookup_insert_eq in Hm. simplify_eq. destruct Hv as [key Hkv].
    destruct (Hnew key v Hkv) as [?|Hold]; [done|].
    apply (Hr l (Object props) Hl). by exists key.
  - rewrite lookup_insert_ne in Hm by done. by apply (Hr m c).
Qed.

Section Total.

Variable replaceWith : string.
Variable onSanitize : bool.
Variable accessor_hit : nat → bool.

Abbreviation clean_key := (clean_key replaceWith onSanitize accessor_hit).
Abbreviation clean_keys := (clean_keys replaceWith onSanitize accessor_hit).
Abbreviation clean := (clean replaceWith onSanitize accessor_hit).

Section Loops.

Variable rec : Store → value → option (Store * value).
Variable n : nat.
Hypothesis rec_total :
  ∀ σ v r,
    ranked r (heap σ) → below r (heap σ) n v →
    ∃ σ' v' r',
      rec σ v = Some (σ', v') ∧ ranked r' (heap σ') ∧
      rank_extends r (heap σ) r' (heap σ') ∧
      ∀ b, below r (heap σ) b v → below r' (heap σ') b v'.

Lemma clean_key_total l key σ r :
  ranked r (heap σ) → is_object (heap σ) l → (r l ≤ n)%nat →
  ∃ σ' r',
    clean_key rec l key σ = Some σ' ∧ ranked r' (heap σ') ∧
    rank_extends r (heap σ) r' (heap σ').
Proof.
  intros Hr [props Hl] Hn. unfold MongoSanitize.clean_key. cbv zeta.
  rewrite (proj2 (own_props_Some σ l props) Hl).
  destruct (get_prop key props) as [v|] eqn:Hget.
  2:{ exists σ, r. split_and!; [done..|apply rank_extends_refl]. }
  assert (below r (heap σ) (r l) v) as Hv.
  { apply (Hr l (Object props) Hl). by exists key. }
  set (σ1 := if forbidden key && onSanitize then report key σ else σ).
  assert (heap σ1 = heap σ) as Hσ1
    by (unfold σ1; by destruct (forbidden key && onSanitize)).
  destruct (rec_total σ1 v r) as (σ2 & cv & r2 & -> & Hr2 & Hext & Hcv).
  { by rewrite Hσ1. }
  { rewrite Hσ1. eapply below_weaken; [|done]. lia. }
  rewrite Hσ1 in Hext, Hcv. cbv beta iota.
  destruct (proj1 (proj1 (proj1 Hext) l)) as [props2 Hl2]; [by eexists|].
  assert (r2 l = r l) as Hrl by (apply Hext; by rewrite Hl).
  assert (below r2 (heap σ2) (r2 l) cv) as Hcv' by (rewrite Hrl; by apply Hcv).
  (* both branches write properties that are old or rank below [l] *)
  assert (∃ σ' props',
            (if forbidden key
             then Some (assign accessor_hit l
                          (if forbidden key then replace_forbidden replaceWith key
                           else key) cv (delete_key l key σ2))
             else if negb (strict_eq (read_prop l key σ2) cv)
                  then Some (assign accessor_hit l key cv σ2) else Some σ2)
            = Some σ' ∧
            heap σ' = <[l := Object props']> (heap σ2) ∧
            ∀ k x, get_prop k props' = Some x →
                   below r2 (heap σ2) (r2 l) x ∨ get_prop k props2 = Some x)
    as (σ' & props' & -> & Hheap & Hnew).
  { destruct (forbidden key).
    - pose proof (delete_key_props l key σ2 props2 Hl2) as Hdel.
      destruct (assign_props accessor_hit l (replace_forbidden replaceWith key) cv
                  (delete_key l key σ2) (delete_prop key props2))
        as (props' & Heq & Hp).
      { by rewrite Hdel, lookup_insert_eq. }
      eexists _, props'. split_and!; [done|by rewrite Heq, Hdel, insert_insert_eq|].
      intros k x Hk. destruct (Hp k x Hk) as [[-> ->]|Hold]; [by left|].
      rewrite get_prop_delete in Hold.
      destruct (String.eqb key k); [done|by right].
    - destruct (negb (strict_eq (read_prop l key σ2) cv)).
      + destruct (assign_props accessor_hit l key cv σ2 props2 Hl2)
          as (props' & Heq & Hp).
        eexists _, props'. split_and!; [done..|].
        intros k x Hk. destruct (Hp k x Hk) as [[-> ->]|Hold]; auto.
      + exists σ2, props2. split_and!; [done|by rewrite insert_id|auto]. }
  destruct (ranked_write r2 (heap σ2) l props2 props' Hr2 Hl2 Hnew) as [Hr' Hext'].
  rewrite <-Hheap in Hr', Hext'.
  exists σ', r2. split_and!; [done..|]. by eapply rank_extends_trans.
Qed.

Lemma clean_keys_total l keys σ r :
  ranked r (heap σ) → is_object (heap σ) l → (r l ≤ n)%nat →
  ∃ σ' r',
    clean_keys rec l keys σ = Some σ' ∧ ranked r' (heap σ') ∧
    rank_extends r (heap σ) r' (heap σ').
Proof.
  revert σ r. induction keys as [|key keys IH]; intros σ r Hr Hl Hn; cbn.
  - exists σ, r. split_and!; [done..|apply rank_extends_refl].
  - destruct (clean_key_total l key σ r Hr Hl Hn) as (σ1 & r1 & -> & Hr1 & Hext1).
    destruct (IH σ1 r1) as (σ2 & r2 & -> & Hr2 & Hext2); [done| | |].
    + by apply (proj1 Hext1).
    + destruct Hl as [props Hl].
      rewrite (proj2 (proj2 Hext1 l (mk_is_Some _ _ Hl))). done.
    + exists σ2, r2. split_and!; [done..|]. by eapply rank_extends_trans.
Qed.

Lemma clean_elems_total elems σ r :
  ranked r (heap σ) → Forall (below r (heap σ) n) elems →
  ∃ σ' elems' r',
    clean_elems rec elems σ = Some (σ', elems') ∧ ranked r' (heap σ') ∧
    rank_extends r (heap σ) r' (heap σ') ∧
    ∀ b, Forall (below r (heap σ) b) elems → Forall (below r' (heap σ') b) elems'.
Proof.
  revert σ r. induction elems as [|v elems IH]; intros σ r Hr Hb; cbn.
  - exists σ, [], r. split_and!; [done..|apply rank_extends_refl|done].
  - apply Forall_cons in Hb as [Hv Hvs].
    destruct (rec_total σ v r Hr Hv) as (σ1 & v1 & r1 & -> & Hr1 & Hext1 & Hv1).
    destruct (IH σ1 r1 Hr1) as (σ2 & vs2 & r2 & -> & Hr2 & Hext2 & Hvs2).
    { eapply Forall_impl; [done|]. intros x. by apply below_extends. }
    exists σ2, (v1 :: vs2), r2. split_and!; [done..|by eapply rank_extends_trans|].
    intros b [Hbv Hbvs]%Forall_cons. constructor.
    + eapply below_extends; [done|]. by apply Hv1.
    + apply Hvs2. eapply Forall_impl; [done|]. intros x. by apply below_extends.
Qed.

End Loops.

(** With [fuel] above the rank of the argument the call returns, and the
    heap it leaves is ranked again. *)
Lemma clean_total fuel σ v r :
  ranked r (heap σ) → below r (heap σ) fuel v →
  ∃ σ' v' r',
    clean (S fuel) σ v = Some (σ', v') ∧ ranked r' (heap σ') ∧
    rank_extends r (heap σ) r' (heap σ') ∧
    ∀ b, below r (heap σ) b v → below r' (heap σ') b v'.
Proof.
  revert σ v r. induction fuel as [|fuel IH]; intros σ v r Hr Hv.
  { destruct v as [| | | | |l]; [..|destruct Hv; lia];
      (eexists σ, _, r; split_and!; [done..|apply rank_extends_refl|done]). }
  destruct v as [| | | | |l];
    try (eexists σ, _, r; split_and!; [done..|apply rank_extends_refl|done]).
  destruct Hv as [[c Hl] Hrl].
  assert (∀ x, member x c → below r (heap σ) fuel x) as Hmem.
  { intros x Hx. eapply below_weaken; [|by apply (Hr l c Hl)]. lia. }
  rewrite clean_ref, Hl. destruct c as [props|elems].
  - destruct (clean_keys_total _ fuel IH l props.*1 σ r) as (σ1 & r1 & -> & Hr1 & Hext);
      [done|by eexists|lia|].
    exists σ1, (VRef l), r1. split_and!; [done..|].
    intros b Hb. by eapply below_extends.
  - destruct (clean_elems_total _ fuel IH elems σ r) as (σ1 & vs1 & r1 & -> & Hr1 & Hext & Hvs);
      [done|by apply Forall_forall|].
    pose proof (fresh_heap (heap σ1)) as Hfresh.
    set (l' := fresh (dom (heap σ1))) in *.
    set (r' := λ x, if decide (x = l') then r l else r1 x).
    assert (∀ b x, below r1 (heap σ1) b x →
                   below r' (<[l' := Array vs1]> (heap σ1)) b x) as Hkeep.
    { intros b [| | | | |m]; cbn; [done..|]. intros [Hm Hlt].
      assert (m ≠ l') as Hne by (intros ->; rewrite Hfresh in Hm; by destruct Hm).
      rewrite lookup_insert_ne by done. unfold r'. by rewrite decide_False. }
    exists (write_cell l' (Array vs1) σ1), (VRef l'), r'. split_and!.
    + done.
    + intros m c Hm x Hx. cbn in Hm. destruct (decide (m = l')) as [->|Hne].
      * rewrite lookup_insert_eq in Hm. simplify_eq. apply Hkeep.
        unfold r'. rewrite decide_True by done.
        assert (Forall (below r1 (heap σ1) (r l)) vs1) as Hall.
        { apply Hvs, Forall_forall. intros y Hy. by apply (Hr l (Array elems) Hl). }
        by apply (proj1 (Forall_forall _ _) Hall).
      * rewrite lookup_insert_ne in Hm by done. apply Hkeep.
        unfold r'. rewrite decide_False by done. by apply (Hr1 m c).
    + eapply rank_extends_trans; [done|]. split; [by apply same_objects_alloc|].
      intros m Hm. assert (m ≠ l') as Hne
        by (intros ->; rewrite Hfresh in Hm; by destruct Hm).
      cbn. rewrite lookup_insert_ne by done. unfold r'. by rewrite decide_False.
    + intros b [_ Hb]. cbn. rewrite lookup_insert_eq. unfold r'.
      rewrite decide_True by done. eauto.
Qed.

(** On a heap without cycles, [clean] returns for every value that is there;
    the heap it leaves has no cycle either. *)
Lemma clean_terminates σ v :
  acyclic (heap σ) →
  (∀ l, v = VRef l → is_Some (heap σ !! l)) →
  ∃ fuel σ' v',
    clean fuel σ v = Some (σ', v') ∧ acyclic (heap σ') ∧
    ∀ l, v' = VRef l → is_Some (heap σ' !! l).
Proof.
  intros [r Hr] Hv.
  set (fuel := match v with VRef l => S (r l) | _ => O end).
  destruct (clean_total fuel σ v r Hr) as (σ' & v' & r' & Hc & Hr' & _ & Hb).
  { destruct v as [| | | | |l]; cbn; [done..|]. split; [by apply Hv|lia]. }
  exists (S fuel), σ', v'. split_and!; [done|by exists r'|].
  intros l ->. apply (Hb fuel).
  destruct v as [| | | | |m]; cbn; [done..|]. split; [by apply Hv|lia].
Qed.

End Total.

(** *** More fuel changes nothing *)

Section Fuel.

Variable replaceWith : string.
Variable onSanitize : bool.
Variable accessor_hit : nat → bool.

Abbreviation clean_key := (clean_key replaceWith onSanitize accessor_hit).
Abbreviation clean_keys := (clean_keys replaceWith onSanitize accessor_hit).
Abbreviation clean := (clean replaceWith onSanitize accessor_hit).

Section Loops.

Variables rec rec' : Store → value → option (Store * value).
Hypothesis rec_le : ∀ σ v res, rec σ v = Some res → rec' σ v = Some res.

Lemma clean_key_le l key σ σ' :
  clean_key rec l key σ = Some σ' → clean_key rec' l key σ = Some σ'.
Proof.
  unfold MongoSanitize.clean_key. cbv zeta.
  destruct (own_props σ l) as [props|]; [|done].
  destruct (get_prop key props) as [v|]; [|done].
  destruct (rec _ v) as [[σ2 cv]|] eqn:Hrec; [|done].
  by rewrite (rec_le _ _ _ Hrec).
Qed.

Lemma clean_keys_le l keys σ σ' :
  clean_keys rec l keys σ = Some σ' → clean_keys rec' l keys σ = Some σ'.
Proof.
  revert σ. induction keys as [|key keys IH]; intros σ; cbn; [done|].
  destruct (clean_key rec l key σ) as [σ1|] eqn:H1; [|done].
  rewrite (clean_key_le _ _ _ _ H1). apply IH.
Qed.

Lemma clean_elems_le elems σ res :
  clean_elems rec elems σ = Some res → clean_elems rec' elems σ = Some res.
Proof.
  revert σ res. induction elems as [|v elems IH]; intros σ res; cbn; [done|].
  destruct (rec σ v) as [[σ1 v1]|] eqn:H1; [|done].
  rewrite (rec_le _ _ _ H1).
  destruct (clean_elems rec elems σ1) as [[σ2 vs2]|] eqn:H2; [|done].
  by rewrite (IH _ _ H2).
Qed.

End Loops.

Lemma clean_fuel_S fuel σ v res :
  clean fuel σ v = Some res → clean (S fuel) σ v = Some res.
Proof.
  revert σ v res. induction fuel as [|fuel IH]; intros σ v res H; [done|].
  destruct v as [| | | | |l]; try done.
  rewrite clean_ref in H. rewrite clean_ref.
  destruct (heap σ !! l) as [[props|elems]|]; [| |done].
  - destruct (clean_keys (clean fuel) l props.*1 σ) as [σ1|] eqn:H1; [|done].
    by rewrite (clean_keys_le _ _ IH _ _ _ _ H1).
  - destruct (clean_elems (clean fuel) elems σ) as [[σ1 vs1]|] eqn:H1; [|done].
    by rewrite (clean_elems_le _ _ IH _ _ _ H1).
Qed.

(** The result does not depend on the fuel, once there is enough of it. *)
Lemma clean_fuel_le fuel fuel' σ v res :
  (fuel ≤ fuel')%nat →
  clean fuel σ v = Some res → clean fuel' σ v = Some res.
Proof.
  induction 1 as [|fuel' _ IH]; [done|]. intros H. by apply clean_fuel_S, IH.
Qed.

(** *** Objects inside arrays *)

(** The copy of an array holds, in the place of every object, that object. *)
Lemma clean_elems_keeps_objects fuel elems σ σ' elems' :
  clean_elems (clean fuel) elems σ = Some (σ', elems') →
  Forall2 (λ v v', ∀ m, v = VRef m → is_object (heap σ) m → v' = v) elems elems'.
Proof.
  revert σ elems'. induction elems as [|v elems IH]; intros σ elems' H; cbn in H.
  - simplify_eq. constructor.
  - destruct (clean fuel σ v) as [[σ1 v1]|] eqn:H1; [|done].
    destruct (clean_elems (clean fuel) elems σ1) as [[σ2 vs2]|] eqn:H2; [|done].
    simplify_eq. constructor.
    + intros m -> [props Hm].
      by eapply (clean_object_returns_argument replaceWith onSanitize accessor_hit).
    + eapply Forall2_impl; [by eapply IH|]. cbn. intros x x' Hx m -> Hm.
      apply (Hx m); [done|].
      by apply (clean_same_objects _ _ _ _ _ _ _ _ H1).
Qed.

End Fuel.

(** *** The middleware *)

Section Middleware.

Variable onSanitize : bool.
Variable accessor_hit : nat → bool.

Abbreviation clean_part := (clean_part "_" onSanitize accessor_hit).
Abbreviation mongoSanitize := (mongoSanitize "_" onSanitize accessor_hit).

Lemma clean_part_sound fuel part σ σ' G :
  clean_part fuel part σ = Some σ' →
  certified (heap σ) G →
  ∃ G', G ⊆ G' ∧ certified (heap σ') G' ∧ (is_ref part = true → val_in G' part).
Proof.
  unfold MongoSanitize.clean_part. intros H Hc.
  destruct (truthy_value part) eqn:Ht.
  - destruct (MongoSanitize.clean _ _ _ fuel σ part) as [[σ1 v1]|] eqn:H1; [|done].
    cbn in H. simplify_eq.
    destruct (clean_sound _ _ _ _ _ _ _ G H1 Hc) as (G' & ? & ? & ? & _).
    exists G'. auto.
  - simplify_eq. exists G. split_and!; [done..|]. by destruct part.
Qed.

(** The results of the three calls are dropped, and still no object that can
    be reached from the body, the query or the params has a forbidden key
    afterwards. *)
Lemma mongoSanitize_sound fuel body query params σ σ' part m props key :
  mongoSanitize fuel body query params σ = Some σ' →
  part ∈ [body; query; params] →
  reach (heap σ') part m →
  heap σ' !! m = Some (Object props) →
  key ∈ props.*1 →
  forbidden key = false.
Proof.
  unfold MongoSanitize.mongoSanitize. intros H Hpart Hr Hm Hkey.
  destruct (MongoSanitize.clean_part _ _ _ fuel body σ) as [σ1|] eqn:H1; [|done].
  destruct (MongoSanitize.clean_part _ _ _ fuel query σ1) as [σ2|] eqn:H2; [|done].
  destruct (clean_part_sound _ _ _ _ ∅ H1) as (G1 & _ & Hc1 & Hb);
    [by intros ? ?%elem_of_empty|].
  destruct (clean_part_sound _ _ _ _ G1 H2 Hc1) as (G2 & HG2 & Hc2 & Hq).
  destruct (clean_part_sound _ _ _ _ G2 H Hc2) as (G3 & HG3 & Hc3 & Hp).
  assert (val_in G3 part) as Hin.
  { assert (is_ref part = true) as Href by (by destruct Hr).
    apply elem_of_cons in Hpart as [->|Hpart];
      [apply (val_in_mono G1); [by etrans|auto]|].
    apply elem_of_cons in Hpart as [->|Hpart];
      [apply (val_in_mono G2); [done|auto]|].
    apply list_elem_of_singleton in Hpart as ->. auto. }
  assert (m ∈ G3) as HmG by (by apply (certified_reach G3 (heap σ') part m)).
  destruct (Hc3 m HmG) as (c & Hmc & Hk & _). rewrite Hm in Hmc. simplify_eq.
  by apply Hk.
Qed.

End Middleware.

(** *** Keys are deleted and their replacements inserted *)

Lemma rekeyed_refl h : rekeyed h h.
Proof.
  split; [apply same_objects_refl|]. intros l props props' H1 H2. simplify_eq.
  split; auto.
Qed.

Lemma rekeyed_trans h1 h2 h3 : rekeyed h1 h2 → rekeyed h2 h3 → rekeyed h1 h3.
Proof.
  intros [Hs1 Hk1] [Hs2 Hk2]. split; [by eapply same_objects_trans|].
  intros l props1 props3 H1 H3.
  destruct (proj1 (proj1 Hs1 l)) as [props2 H2]; [by eexists|].
  destruct (Hk1 l props1 props2 H1 H2) as [Hf1 Hb1].
  destruct (Hk2 l props2 props3 H2 H3) as [Hf2 Hb2]. split.
  - intros key Hkey. destruct (Hf1 key Hkey) as [Hin|[Hf [Hin| ->]]].
    + destruct (Hf2 key Hin) as [?|[? ?]]; auto.
    + destruct (Hf2 _ Hin) as [?|[Hbad _]]; [by auto|].
      by rewrite replace_forbidden_clean in Hbad.
    + auto.
  - intros key' Hkey'. destruct (Hb2 key' Hkey') as [Hin|(key2 & Hin & Hf & ->)].
    + by apply Hb1.
    + destruct (Hb1 key2 Hin) as [?|(key1 & _ & _ & ->)]; [by eauto|].
      by rewrite replace_forbidden_clean in Hf.
Qed.

(** One write to the object at [l], seen from the heap [h] at the beginning
    of the turn. *)
Lemma rekeyed_write (h h2 : gmap loc cell) l props0 props2 props' :
  rekeyed h h2 →
  h !! l = Some (Object props0) →
  h2 !! l = Some (Object props2) →
  (∀ key, key ∈ props2.*1 →
     key ∈ props'.*1 ∨
     (forbidden key = true ∧
      (replace_forbidden "_" key ∈ props'.*1 ∨
       replace_forbidden "_" key = "__proto__"%string))) →
  (∀ key', key' ∈ props'.*1 →
     key' ∈ props2.*1 ∨ key' ∈ props0.*1 ∨
     ∃ key, key ∈ props0.*1 ∧ forbidden key = true ∧
            key' = replace_forbidden "_" key) →
  rekeyed h (<[l := Object props']> h2).
Proof.
  intros [Hs Hk] Hl0 Hl2 Hfw Hbw. split.
  { eapply same_objects_trans; [done|by eapply same_objects_write]. }
  intros m props props1 Hm Hm1. destruct (decide (l = m)) as [<-|Hne].
  2:{ rewrite lookup_insert_ne in Hm1 by done. by apply (Hk m). }
  rewrite lookup_insert_eq in Hm1. rewrite Hl0 in Hm. simplify_eq.
  destruct (Hk l props props2 Hl0 Hl2) as [Hf Hb]. split.
  - intros key Hkey. destruct (Hf key Hkey) as [Hin|[Hbad [Hin| ->]]].
    + by apply Hfw.
    + destruct (Hfw _ Hin) as [?|[Hbad' _]]; [by auto|].
      by rewrite replace_forbidden_clean in Hbad'.
    + auto.
  - intros key' Hkey'. destruct (Hbw key' Hkey') as [Hin|[?|?]]; auto.
Qed.

Section Rekeyed.

Variable onSanitize : bool.
Variable accessor_hit : nat → bool.

Abbreviation clean_key := (clean_key "_" onSanitize accessor_hit).
Abbreviation clean_keys := (clean_keys "_" onSanitize accessor_hit).
Abbreviation clean := (clean "_" onSanitize accessor_hit).

Section Loops.

Variable rec : Store → value → option (Store * value).
Hypothesis rec_rekeyed :
  ∀ σ v σ' v', rec σ v = Some (σ', v') → rekeyed (heap σ) (heap σ').

Lemma clean_key_rekeyed l key σ σ' :
  clean_key rec l key σ = Some σ' → rekeyed (heap σ) (heap σ').
Proof.
  unfold MongoSanitize.clean_key. cbv zeta. intros H.
  destruct (own_props σ l) as [props|] eqn:Hown; [|done].
  apply own_props_Some in Hown.
  destruct (get_prop key props) as [v|] eqn:Hget;
    [|simplify_eq; apply rekeyed_refl].
  assert (key ∈ props.*1) as Hkey by (apply get_prop_keys; eauto).
  destruct (rec _ v) as [[σ2 cv]|] eqn:Hrec; [|done].
  apply rec_rekeyed in Hrec.
  assert (rekeyed (heap σ) (heap σ2)) as Hre
    by (by destruct (forbidden key && onSanitize)).
  clear Hrec.
  destruct (proj1 (proj1 (proj1 Hre) l)) as [props2 Hl2]; [by eexists|].
  destruct (forbidden key) eqn:Hf.
  - simplify_eq.
    pose proof (delete_key_props l key σ2 props2 Hl2) as Hdel.
    destruct (assign_set_or_absorbed accessor_hit l (replace_forbidden "_" key) cv
                (delete_key l key σ2) (delete_prop key props2)) as [Heq|[Hproto Heq]].
    { by rewrite Hdel, lookup_insert_eq. }
    + rewrite Heq, Hdel, insert_insert_eq.
      eapply rekeyed_write; [done..| |].
      * intros k Hk. destruct (decide (k = key)) as [->|Hne].
        -- right. split; [done|]. left. apply keys_set_prop. by left.
        -- left. apply keys_set_prop. right. by apply keys_delete_prop.
      * intros k [->|[_ ?]%keys_delete_prop]%keys_set_prop; [|by auto].
        right; right. by exists key.
    + rewrite Heq, Hdel.
      eapply rekeyed_write; [done..| |].
      * intros k Hk. destruct (decide (k = key)) as [->|Hne].
        -- right. split; [done|]. by right.
        -- left. by apply keys_delete_prop.
      * intros k [_ ?]%keys_delete_prop. auto.
  - destruct (negb (strict_eq (read_prop l key σ2) cv)); simplify_eq; [|done].
    destruct (assign_set_or_absorbed accessor_hit l key cv σ2 props2 Hl2)
      as [Heq|[_ Heq]]; rewrite Heq; [|done].
    eapply rekeyed_write; [done..| |].
    + intros k Hk. left. apply keys_set_prop. by right.
    + intros k [->|?]%keys_set_prop; auto.
Qed.

Lemma clean_keys_rekeyed l keys σ σ' :
  clean_keys rec l keys σ = Some σ' → rekeyed (heap σ) (heap σ').
Proof.
  revert σ. induction keys as [|key keys IH]; intros σ H; cbn in H.
  - simplify_eq. apply rekeyed_refl.
  - destruct (clean_key rec l key σ) as [σ1|] eqn:H1; [|done].
    eapply rekeyed_trans; [by eapply clean_key_rekeyed|by apply IH].
Qed.

Lemma clean_elems_rekeyed elems σ σ' elems' :
  clean_elems rec elems σ = Some (σ', elems') → rekeyed (heap σ) (heap σ').
Proof.
  revert σ elems'. induction elems as [|v elems IH]; intros σ elems' H; cbn in H.
  - simplify_eq. apply rekeyed_refl.
  - destruct (rec σ v) as [[σ1 v1]|] eqn:H1; [|done].
    destruct (clean_elems rec elems σ1) as [[σ2 vs2]|] eqn:H2; [|done].
    simplify_eq. eapply rekeyed_trans; [by eapply rec_rekeyed|by eapply IH].
Qed.

End Loops.

Lemma clean_rekeyed fuel σ v σ' v' :
  clean fuel σ v = Some (σ', v') → rekeyed (heap σ) (heap σ').
Proof.
  revert σ v σ' v'. induction fuel as [|fuel IH]; intros σ v σ' v' H; [done|].
  destruct v as [| | | | |l];
    try (cbn in H; simplify_eq; apply rekeyed_refl).
  rewrite clean_ref in H.
  destruct (heap σ !! l) as [[props|elems]|] eqn:Hl; [| |done].
  - destruct (clean_keys (clean fuel) l props.*1 σ) as [σ1|] eqn:H1; [|done].
    simplify_eq. by eapply clean_keys_rekeyed.
  - destruct (clean_elems (clean fuel) elems σ) as [[σ1 vs1]|] eqn:H1; [|done].
    simplify_eq. eapply rekeyed_trans; [by eapply clean_elems_rekeyed|].
    pose proof (fresh_heap (heap σ1)) as Hfresh.
    split; [by apply same_objects_alloc|].
    intros m ps ps' H2 H3. cbn in H3.
    rewrite lookup_insert_ne in H3 by congruence. simplify_eq. split; auto.
Qed.

End Rekeyed.

(** *** In place, and free of forbidden keys *)

Section Results.

Variable onSanitize : bool.
Variable accessor_hit : nat → bool.


(** C10: with the replacement character [_], a call on a heap without cycles
    returns; after a call that returns, no own key of an object that can be
    reached from the result begins with [$] or contains [.]; and a value that
    is not an object comes back as it was, the heap untouched. *)
Theorem clean_leaves_no_forbidden_key :
  (∀ σ v,
     acyclic (heap σ) → (∀ l, v = VRef l → is_Some (heap σ !! l)) →
     ∃ fuel σ' v', clean "_" onSanitize accessor_hit fuel σ v = Some (σ', v')) ∧
  (∀ fuel σ v σ' v' m props key,
     clean "_" onSanitize accessor_hit fuel σ v = Some (σ', v') →
     reach (heap σ') v' m → heap σ' !! m = Some (Object props) →
     key ∈ props.*1 →
     startsWith "$" key = false ∧ includes "." key = false) ∧
  (∀ fuel σ v,
     is_ref v = false →
     clean "_" onSanitize accessor_hit (S fuel) σ v = Some (σ, v)).
Proof.
  split_and!.
  - intros σ v Hacyclic Hv.
    destruct (clean_terminates "_" onSanitize accessor_hit σ v Hacyclic Hv)
      as (fuel & σ' & v' & H & _). eauto.
  - intros fuel σ v σ' v' m props key H Hr Hm Hkey. apply forbidden_spec.
    eapply clean_reach_clean; [done|by left|done..].
  - intros fuel σ v Hv. by apply clean_primitive.
Qed.

End Results.

(** *** The theorems at a concrete request body *)

Lemma sample_store_ranked : ranked sample_rank (heap sample_store).
Proof.
  intros l c Hl v Hv. cbn in Hl.
  repeat (rewrite lookup_insert in Hl; case_decide; simplify_eq).
  - destruct Hv as [key Hk]. cbn in Hk.
    repeat (case_match; simplify_eq); cbn; try done.
    split; [by eexists|lia].
  - cbn in Hv. repeat (apply elem_of_cons in Hv as [->|Hv]); cbn.
    + split; [by eexists|lia].
    + done.
    + by apply elem_of_nil in Hv.
  - destruct Hv as [key Hk]. cbn in Hk. repeat (case_match; simplify_eq). done.
Defined.

Lemma sample_clean :
  clean "_" true (λ _, true) 4 sample_store (VRef 1) = Some (sample_cleaned, VRef 1).
Proof. vm_compute. reflexivity. Defined.


Lemma clean_leaves_no_forbidden_key_witness :
  startsWith "$" "_where" = false ∧ includes "." "_where" = false.
Proof.
  apply (proj1 (proj2 (clean_leaves_no_forbidden_key true (λ _, true))) 4%nat
           sample_store (VRef 1) sample_cleaned (VRef 1) 3%positive
           [("_where", VString "x")]%string "_where"%string sample_clean).
  - apply (reach_member _ 1%positive
             (Object [("ok", VBool true); ("_gt", VNumber 1); ("a_b", VRef 4)]%string)
             (VRef 4)); [reflexivity|by exists "a_b"%string|].
    apply (reach_member _ 4%positive (Array [VRef 3; VString "s"]) (VRef 3));
      [reflexivity|apply list_elem_of_here|apply reach_here].
  - reflexivity.
  - apply list_elem_of_here.
Defined.

End MongoSanitizeFacts.

(** ** More on the CSRF guard *)

Module CsrfMore.
Import Js JsFacts Csrf CsrfNotions CsrfFacts.

Lemma world_eq (w1 w2 : World) :
  tokenStore w1 = tokenStore w2 → drawn w1 = drawn w2 → w1 = w2.
Proof. destruct w1, w2. cbn. by intros -> ->. Qed.

Section Guard.

Variable randomHex : nat → string.
Variable NODE_ENV : option string.

Abbreviation csrfProtection := (csrfProtection randomHex NODE_ENV).
Abbreviation step := (step randomHex NODE_ENV).
Abbreviation run := (run randomHex NODE_ENV).
Abbreviation generated_only := (generated_only randomHex).

(** *** The sweep *)

(** X1: the sweep keeps exactly the records that have not expired, as they
    are; a record whose [expires] equals the time of the sweep stays. *)
Theorem sweep_keeps_exactly_unexpired now w key d :
  tokenStore (sweep now w) !! key = Some d ↔
  tokenStore w !! key = Some d ∧ now ≤ expires d.
Proof.
  rewrite sweep_lookup. destruct (tokenStore w !! key) as [d'|].
  - case_bool_decide; split.
    + done.
    + intros [[= ->] ?]. lia.
    + intros [= ->]. split; [done|lia].
    + by intros [? _].
  - split; [done|by intros [? _]].
Qed.

(** X2: two sweeps in a row leave what the one at the later of the two times
    leaves; sweeping again at the same time changes nothing. *)
Theorem sweep_sweep now1 now2 w :
  sweep now2 (sweep now1 w) = sweep (Z.max now1 now2) w.
Proof.
  apply world_eq; [|done]. apply map_eq. intros key.
  rewrite !sweep_lookup. destruct (tokenStore w !! key) as [d|]; [|done].
  repeat case_bool_decide; try done; lia.
Qed.

(** *** One session at a time *)

(** X3: a request writes at most the record of its own session key (a
    generated key, when a safe request resolves none); the records of all
    other keys stay as they are. *)
Theorem other_sessions_untouched now req w key :
  key ≠ default (randomHex (S (drawn w))) (nonempty (sessionId_of req)) →
  tokenStore (world (csrfProtection now req w)) !! key = tokenStore w !! key.
Proof.
  intros Hne. destruct (is_safe (method req)) eqn:Hm.
  - rewrite (csrfProtection_safe _ _ _ _ _ Hm).
    destruct (nonempty (sessionId_of req)) as [sid|]; cbn in *;
      by rewrite lookup_insert_ne.
  - rewrite (csrfProtection_unsafe _ _ _ _ _ Hm).
    destruct (nonempty (sessionId_of req)) as [sid|]; [|done].
    destruct (nonempty (tokenFromRequest req)) as [cand|]; [|done].
    destruct (tokenStore w !! sid) as [d|]; [|done].
    destruct (String.eqb (token d) cand); [|done].
    cbn in *. by rewrite lookup_insert_ne.
Qed.

(** X4: an unsafe request never creates a record: whether it passes or not,
    the store holds records for the same session keys as before. *)
Theorem unsafe_request_adds_no_key now req w :
  method req ∉ safe_methods →
  dom (tokenStore (world (csrfProtection now req w))) = dom (tokenStore w).
Proof.
  intros Hm%is_safe_false. rewrite (csrfProtection_unsafe _ _ _ _ _ Hm).
  destruct (nonempty (sessionId_of req)) as [sid|]; [|done].
  destruct (nonempty (tokenFromRequest req)) as [cand|]; [|done].
  destruct (tokenStore w !! sid) as [d|] eqn:Hd; [|done].
  destruct (String.eqb (token d) cand); [|done].
  cbn. rewrite dom_insert_L. apply subseteq_union_1_L, singleton_subseteq_l.
  apply elem_of_dom. eauto.
Qed.

(** *** Issue, then validate *)

(** X5: the token that a safe request sets in the cookie passes on the next
    unsafe request of the same session, and that request sets the next
    generated token in its place. *)
Theorem issued_token_validates now req w sid now' req' :
  method req ∈ safe_methods →
  nonempty (sessionId_of req) = Some sid →
  randomHex (drawn w) ≠ EmptyString →
  method req' ∉ safe_methods →
  nonempty (sessionId_of req') = Some sid →
  tokenFromRequest req' = cookie_value <$> set_cookie (csrfProtection now req w) →
  next (csrfProtection now' req' (world (csrfProtection now req w))) = NextOk ∧
  cookie_value <$>
    set_cookie (csrfProtection now' req' (world (csrfProtection now req w)))
  = Some (randomHex (S (drawn w))).
Proof.
  intros Hm%is_safe_true Hs Hne Hm'%is_safe_false Hs' Hc.
  rewrite (csrfProtection_safe _ _ _ _ _ Hm), Hs in *. cbn in Hc.
  assert (nonempty (tokenFromRequest req') = Some (randomHex (drawn w))) as Hc'.
  { by apply nonempty_Some. }
  rewrite (csrfProtection_unsafe _ _ _ _ _ Hm'), Hs', Hc'. cbn.
  by rewrite lookup_insert_eq, String.eqb_refl.
Qed.

(** X6: every safe request replaces the token of its session: once a second
    safe request of the session has been served, the token issued by the
    first one is rejected (the two tokens being different). *)
Theorem later_safe_request_invalidates now1 req1 now2 req2 w sid now3 req3 :
  method req1 ∈ safe_methods →
  nonempty (sessionId_of req1) = Some sid →
  method req2 ∈ safe_methods →
  nonempty (sessionId_of req2) = Some sid →
  randomHex (S (drawn w)) ≠ randomHex (drawn w) →
  method req3 ∉ safe_methods →
  nonempty (sessionId_of req3) = Some sid →
  tokenFromRequest req3 = Some (randomHex (drawn w)) →
  locals_csrfToken (csrfProtection now1 req1 w) = Some (randomHex (drawn w)) ∧
  rejected (csrfProtection now3 req3
              (world (csrfProtection now2 req2
                        (world (csrfProtection now1 req1 w))))).
Proof.
  intros Hm1%is_safe_true Hs1 Hm2%is_safe_true Hs2 Hne Hm3%is_safe_false Hs3 Hc.
  rewrite (csrfProtection_safe _ _ _ _ _ Hm1), Hs1. split; [done|].
  rewrite (csrfProtection_safe _ _ _ _ _ Hm2), Hs2.
  apply rejected_not_ok. intros Hok.
  apply (unsafe_passes randomHex NODE_ENV _ _ _ Hm3) in Hok
    as (sid' & d & Hsid & Hd & [Hcand _]%nonempty_Some).
  rewrite Hs3 in Hsid. injection Hsid as <-. cbn in Hd.
  rewrite lookup_insert_eq in Hd. injection Hd as <-. cbn in Hcand.
  rewrite Hc in Hcand. by injection Hcand as Heq.
Qed.

(** *** What the store holds *)

Lemma generated_only_step w ev :
  generated_only w → generated_only (step w ev).
Proof.
  intros Hg.
  assert (∀ now sid n,
            (drawn w < n)%nat →
            generated_only
              (world (issue NODE_ENV now sid (randomHex (drawn w))
                            (mkWorld (tokenStore w) n)))) as Hissue.
  { intros now sid n Hn sid' d. cbn. destruct (decide (sid = sid')) as [<-|Hne].
    - rewrite lookup_insert_eq. intros [= <-]. exists (drawn w). split; [lia|done].
    - rewrite lookup_insert_ne by done. intros (m & ? & ?)%Hg.
      exists m. split; [lia|done]. }
  destruct ev as [now req|now]; cbn.
  - destruct (is_safe (method req)) eqn:Hm.
    + rewrite (csrfProtection_safe _ _ _ _ _ Hm).
      destruct (nonempty (sessionId_of req)); apply Hissue; lia.
    + rewrite (csrfProtection_unsafe _ _ _ _ _ Hm).
      destruct (nonempty (sessionId_of req)) as [s|]; [|done].
      destruct (nonempty (tokenFromRequest req)) as [c|]; [|done].
      destruct (tokenStore w !! s) as [d|]; [|done].
      destruct (String.eqb (token d) c); [|done]. apply Hissue. lia.
  - intros sid d. rewrite sweep_lookup.
    destruct (tokenStore w !! sid) as [d'|] eqn:Hd; [|done].
    case_bool_decide; [done|]. intros [= <-]. by apply (Hg sid d').
Qed.

(** X7: whatever requests and sweeps the module has gone through since it
    was loaded, every token in the store is one the generator produced: a
    value sent by a client is compared, never stored. *)
Theorem store_holds_generated_tokens evs :
  generated_only (run evs initial).
Proof.
  assert (∀ w, generated_only w → generated_only (run evs w)) as Hrun.
  { induction evs as [|ev evs IH]; intros w Hw; [done|].
    cbn. apply IH. by apply generated_only_step. }
  apply Hrun. intros sid d. unfold initial. cbn. by rewrite lookup_empty.
Qed.

(** X8: the record stored by a safe request served at [now] survives every
    sweep up to [now] plus one hour and is removed by every later one. *)
Theorem record_lives_one_hour now req w sid now' :
  method req ∈ safe_methods →
  nonempty (sessionId_of req) = Some sid →
  is_Some (tokenStore (sweep now' (world (csrfProtection now req w))) !! sid) ↔
  now' ≤ now + HOUR.
Proof.
  intros Hm%is_safe_true Hs. rewrite (csrfProtection_safe _ _ _ _ _ Hm), Hs.
  rewrite sweep_lookup. cbn. rewrite lookup_insert_eq. cbn.
  case_bool_decide; split; [by intros [? ?]|lia|lia|by eexists].
Qed.

End Guard.

(** *** The theorems at concrete requests *)

Lemma other_sessions_untouched_witness :
  tokenStore (world (guard 10 (get_of "S2") (sample_world "S1" "T1" 1000)))
    !! "S1"%string =
  tokenStore (sample_world "S1" "T1" 1000) !! "S1"%string.
Proof.
  apply (other_sessions_untouched sample_hex None 10 (get_of "S2")
           (sample_world "S1" "T1" 1000) "S1"%string).
  discriminate.
Defined.

Lemma unsafe_request_adds_no_key_witness :
  dom (tokenStore (world (guard 10 (post_header "S2" "T1")
                                (sample_world "S1" "T1" 1000)))) =
  dom (tokenStore (sample_world "S1" "T1" 1000)).
Proof.
  apply (unsafe_request_adds_no_key sample_hex None 10 (post_header "S2" "T1")
           (sample_world "S1" "T1" 1000) POST_unsafe).
Defined.

(** Scenario A: GET, then POST with the token of the cookie in the header. *)
Lemma issued_token_validates_witness :
  next (guard 20 (post_header "S1" "a")
              (world (guard 10 (get_of "S1") initial))) = NextOk.
Proof.
  apply (issued_token_validates sample_hex None 10 (get_of "S1") initial
           "S1"%string 20 (post_header "S1" "a") GET_safe eq_refl);
    [discriminate|exact POST_unsafe|reflexivity|reflexivity].
Defined.

(** Two tabs: the form of the first GET is posted after the second GET. *)
Lemma later_safe_request_invalidates_witness :
  rejected (guard 30 (post_header "S1" "a")
              (world (guard 20 (get_of "S1")
                        (world (guard 10 (get_of "S1") initial))))).
Proof.
  apply (later_safe_request_invalidates sample_hex None 10 (get_of "S1")
           20 (get_of "S1") initial "S1"%string 30 (post_header "S1" "a")
           GET_safe eq_refl GET_safe eq_refl);
    [discriminate|exact POST_unsafe|reflexivity|reflexivity].
Defined.

Lemma record_lives_one_hour_witness :
  is_Some (tokenStore (sweep (10 + HOUR) (world (guard 10 (get_of "S1") initial)))
             !! "S1"%string) ↔
  10 + HOUR ≤ 10 + HOUR.
Proof.
  apply (record_lives_one_hour sample_hex None 10 (get_of "S1") initial
           "S1"%string (10 + HOUR) GET_safe eq_refl).
Defined.

End CsrfMore.

(** ** JWT authentication middleware *)

Module AuthFacts.
Import Js JsFacts MongoSanitize Auth.

Lemma strict_eq_spec a b : strict_eq a b = true ↔ a = b.
Proof.
  destruct a, b; cbn; try (split; [discriminate|congruence]); try done.
  - rewrite Bool.eqb_true_iff. split; congruence.
  - rewrite Z.eqb_eq. split; congruence.
  - rewrite String.eqb_eq. split; congruence.
  - rewrite Pos.eqb_eq. split; congruence.
Qed.

Lemma includes_spec (x : value) (l : list value) :
  existsb (λ r, strict_eq r x) l = true ↔ x ∈ l.
Proof.
  rewrite existsb_exists. split.
  - intros (r & Hin%list_elem_of_In & ->%strict_eq_spec). done.
  - intros Hin. exists x. split; [by apply list_elem_of_In|by apply strict_eq_spec].
Qed.

Lemma bearer_prefix t : startsWith "Bearer " ("Bearer " +:+ t) = true.
Proof. unfold startsWith. cbn. by destruct t. Qed.

Lemma bearer_rest t : substring_from 7 ("Bearer " +:+ t) = t.
Proof. done. Qed.

Section Middleware.

Variable jwt_verify : bool → Z → string → option Payload.
Variable jwt_sign : Z → value → value → value → string.
Variable NODE_ENV : option string.

Abbreviation authenticate := (authenticate jwt_verify).
Abbreviation optionalAuth := (optionalAuth jwt_verify).
Abbreviation refreshToken := (refreshToken jwt_verify jwt_sign NODE_ENV).
Abbreviation authenticate_then_authorize := (authenticate_then_authorize jwt_verify).

(** X9: an [Authorization: Bearer ...] header decides which token is used,
    whatever the cookie and the query string hold. With nothing after
    [Bearer ], the token is the empty string and [authenticate] answers 401
    without looking at the cookie. *)
Theorem bearer_header_comes_first req t :
  authorization req = Some ("Bearer " +:+ t) →
  extractToken req = Some t ∧
  (t = EmptyString →
   ∀ now, authenticate now req = Json 401 "Authentication required. Please login.").
Proof.
  intros Ha.
  assert (extractToken req = Some t) as He.
  { unfold extractToken, is_bearer. rewrite Ha, bearer_prefix.
    cbn [andb fmap option_fmap option_map truthy]. by rewrite bearer_rest. }
  split; [done|]. intros -> now. unfold Auth.authenticate. by rewrite He.
Qed.

(** X10: [authenticate] followed by [authorize(...allowedRoles)] reaches the
    handler exactly when the token of the request verifies and the role it
    carries ([user] when it carries none) is among the allowed ones; the user
    handed on is what the token decodes to. It answers 403 only for a verified
    token, and 401 exactly when no token verifies: [authorize] never answers
    401 behind [authenticate]. *)
Theorem authenticate_then_authorize_spec allowedRoles now req :
  (∀ req' res,
     authenticate_then_authorize allowedRoles now req = Next req' res ↔
     ∃ t p, nonempty (extractToken req) = Some t ∧
            jwt_verify false now t = Some p ∧
            or_value (role p) (VString "user") ∈ allowedRoles ∧
            req' = set_user p req ∧ res = untouched) ∧
  (∀ status msg,
     authenticate_then_authorize allowedRoles now req = Json status msg →
     (status = 403 ∧
      ∃ t p, nonempty (extractToken req) = Some t ∧
             jwt_verify false now t = Some p ∧
             or_value (role p) (VString "user") ∉ allowedRoles) ∨
     (status = 401 ∧
      ∀ t, nonempty (extractToken req) = Some t → jwt_verify false now t = None)) ∧
  authenticate_then_authorize allowedRoles now req ≠ Throws.
Proof.
  unfold Auth.authenticate_then_authorize, Auth.authenticate, verifyToken.
  destruct (nonempty (extractToken req)) as [t|] eqn:Ht.
  2:{ split_and!; [|intros ?? [= <- <-]; by right|done].
      intros req' res. split; [done|]. by intros (? & ? & ? & _). }
  destruct (jwt_verify false now t) as [p|] eqn:Hp.
  2:{ split_and!; [|intros ?? [= <- <-]; right; split; [done|congruence]|done].
      intros req' res. split; [done|]. intros (? & ? & ? & ? & _). congruence. }
  unfold authorize. cbn [user set_user].
  destruct (existsb _ allowedRoles) eqn:Hin; cbn [negb].
  - apply includes_spec in Hin. split_and!; [|done..].
    intros req' res. split.
    + intros [= <- <-]. by exists t, p.
    + intros (t' & p' & ? & ? & _ & -> & ->). by simplify_eq.
  - assert (or_value (role p) (VString "user") ∉ allowedRoles) as Hnot.
    { intros Hin'%includes_spec. congruence. }
    split_and!; [| |done].
    + intros req' res. split; [done|].
      intros (t' & p' & ? & ? & ? & _). by simplify_eq.
    + intros ?? [= <- <-]. left. split; [done|]. by exists t, p.
Qed.

(** X11: a user whose payload carries no role (or an empty or otherwise
    falsy one) is treated as having the role [user]; and with no role allowed
    nobody passes. *)
Theorem authorize_default_role allowedRoles req u :
  user req = Some u →
  (truthy_value (role u) = false →
   (authorize allowedRoles req = Next req untouched ↔
    VString "user" ∈ allowedRoles)) ∧
  authorize [] req = Json 403 "You do not have permission to perform this action.".
Proof.
  intros Hu. unfold authorize. rewrite Hu. split; [|done].
  intros Hrole. unfold or_value. rewrite Hrole.
  destruct (existsb _ allowedRoles) eqn:Hin; cbn [negb].
  - apply includes_spec in Hin. done.
  - split; [done|]. intros Hin'%includes_spec. congruence.
Qed.


(** X13: [refreshToken] always goes on to [next()] and leaves the request as
    it is. It issues a new token exactly when the token of the request
    verifies with expiry ignored and expires strictly within the coming hour
    ([now < exp * 1000 < now + 1h]): a token that has already expired, or has
    an hour or more to live, or no [exp], is never refreshed. The cookie and
    the [X-New-Token] header carry the same new token. *)
Theorem refreshToken_window now req :
  ∃ res,
    refreshToken now req = Next req res ∧
    Csrf.cookie_value <$> token_cookie res = x_new_token res ∧
    (is_Some (x_new_token res) ↔
     ∃ t p e, nonempty (extractToken req) = Some t ∧
              jwt_verify true now t = Some p ∧
              exp p = Some e ∧
              now < e * 1000 < now + ONE_HOUR) ∧
    (∀ newToken, x_new_token res = Some newToken →
       ∃ t p, nonempty (extractToken req) = Some t ∧
              jwt_verify true now t = Some p ∧
              newToken = jwt_sign now (id p) (email p) (role p)).
Proof.
  unfold Auth.refreshToken.
  destruct (nonempty (extractToken req)) as [t|] eqn:Ht.
  2:{ exists untouched. split_and!; [done..| |done].
      split; [by intros [? ?]|by intros (? & ? & ? & ? & _)]. }
  destruct (jwt_verify true now t) as [p|] eqn:Hp.
  2:{ exists untouched. split_and!; [done..| |done].
      split; [by intros [? ?]|]. intros (? & ? & ? & ? & ? & _). congruence. }
  destruct (exp p) as [e|] eqn:He.
  2:{ exists untouched. split_and!; [done..| |done].
      split; [by intros [? ?]|]. intros (? & ? & ? & ? & ? & ? & _). congruence. }
  cbv zeta.
  destruct ((e * 1000 - now <? ONE_HOUR) && (e * 1000 - now >? 0)) eqn:Hw.
  - apply andb_true_iff in Hw as [Hlt%Z.ltb_lt Hgt%Z.gtb_lt].
    eexists. split_and!; [done..| |].
    + split; [|by eexists]. intros _. exists t, p, e. split_and!; [done..|lia|lia].
    + intros newToken [= <-]. by exists t, p.
  - exists untouched. split_and!; [done..| |done].
    split; [by intros [? ?]|]. intros (t' & p' & e' & ? & ? & ? & ? & ?).
    simplify_eq. apply andb_false_iff in Hw as [Hlt%Z.ltb_ge|Hgt].
    + lia.
    + rewrite Z.gtb_ltb in Hgt. apply Z.ltb_ge in Hgt. lia.
Qed.

End Middleware.

(** X14: [isOwner] looks the resource id up before it looks at the role: with
    no such route parameter and no body it throws, for an administrator too.
    Once the id is found, an administrator passes, and anyone else passes
    exactly when [req.user.id] is strictly equal to it, so that a numeric id
    never matches the string of a route parameter, and two missing ids
    match. *)
Theorem isOwner_spec field req u :
  user req = Some u →
  (truthy_value (params req field) = false → body req = None →
   isOwner field req = Throws) ∧
  (∀ resourceUserId,
     (if truthy_value (params req field) then Some (params req field)
      else (λ b, b field) <$> body req) = Some resourceUserId →
     (role u = VString "admin" → isOwner field req = Next req untouched) ∧
     (role u ≠ VString "admin" →
      (isOwner field req = Next req untouched ↔ id u = resourceUserId) ∧
      (id u ≠ resourceUserId →
       isOwner field req = Json 403 "You can only access your own resources.") ∧
      (∀ n s, id u = VNumber n → resourceUserId = VString s →
              isOwner field req ≠ Next req untouched))).
Proof.
  intros Hu. unfold isOwner. rewrite Hu. cbv zeta. split.
  - intros -> ->. done.
  - intros rid ->. split.
    + intros ->. done.
    + intros Hrole.
      assert (strict_eq (role u) (VString "admin") = false) as ->.
      { apply not_true_is_false. by intros ?%strict_eq_spec. }
      destruct (strict_eq (id u) rid) eqn:Heq; cbn [negb].
      * apply strict_eq_spec in Heq. split_and!; [done|done|].
        intros n s Hn Hs. congruence.
      * assert (id u ≠ rid) as Hne by (intros ?%strict_eq_spec; congruence).
        split_and!; [split; [done|by intros ?]|done|done].
Qed.

(** *** The theorems at concrete requests *)

(** An empty Bearer token next to a cookie that would verify. *)
Lemma bearer_header_comes_first_witness :
  extractToken (with_authorization "Bearer " (with_cookie_token "good" sample_request))
  = Some EmptyString ∧
  authenticate sample_verify 0
    (with_authorization "Bearer " (with_cookie_token "good" sample_request))
  = Json 401 "Authentication required. Please login.".
Proof.
  pose proof (bearer_header_comes_first sample_verify
                (with_authorization "Bearer " (with_cookie_token "good" sample_request))
                EmptyString eq_refl) as [H1 H2].
  exact (conj H1 (H2 eq_refl 0)).
Defined.

Lemma authorize_default_role_witness :
  authorize [] (set_user (sample_user (VString "7") VUndefined) sample_request)
  = Json 403 "You do not have permission to perform this action.".
Proof.
  apply (authorize_default_role [VString "user"]
           (set_user (sample_user (VString "7") VUndefined) sample_request)
           (sample_user (VString "7") VUndefined) eq_refl).
Defined.

(** A user whose id is the number 7 asks for the resource of user "7". *)
Lemma isOwner_spec_witness :
  isOwner "userId"
    (with_param "userId" (VString "7")
       (set_user (sample_user (VNumber 7) (VString "user")) sample_request))
  = Json 403 "You can only access your own resources.".
Proof.
  apply (proj2 (isOwner_spec "userId"
                  (with_param "userId" (VString "7")
                     (set_user (sample_user (VNumber 7) (VString "user")) sample_request))
                  (sample_user (VNumber 7) (VString "user")) eq_refl)
           (VString "7") eq_refl);
    discriminate.
Defined.

End AuthFacts.

(** ** Canonical URLs *)

Module SeoFacts.
Import Seo.

Lemma lacks_cons c a s : lacks c (String a s) ↔ a ≠ c ∧ lacks c s.
Proof.
  unfold lacks. cbn. rewrite not_elem_of_cons. split; intros [? ?]; split; congruence.
Qed.

Lemma before_query_append p q :
  lacks "?" p → before_query (p +:+ String "?" q) = p.
Proof.
  induction p as [|a p IH]; [done|]. intros [Ha Hp]%lacks_cons.
  change (before_query (String a p +:+ String "?" q))
    with (if Ascii.eqb a "?" then EmptyString
          else String a (before_query (p +:+ String "?" q))).
  apply Ascii.eqb_neq in Ha as ->. by rewrite IH.
Qed.

Lemma before_query_id p : lacks "?" p → before_query p = p.
Proof.
  induction p as [|a p IH]; [done|]. intros [Ha Hp]%lacks_cons.
  change (before_query (String a p))
    with (if Ascii.eqb a "?" then EmptyString else String a (before_query p)).
  apply Ascii.eqb_neq in Ha as ->. by rewrite IH.
Qed.

Lemma lacks_append c p q : lacks c p → lacks c q → lacks c (p +:+ q).
Proof.
  induction p as [|a p IH]; [done|]. cbn [String.append].
  intros [Ha Hp]%lacks_cons Hq. apply lacks_cons. auto.
Qed.

Lemma append_nonempty p a q : p +:+ String a q ≠ EmptyString.
Proof. by destruct p. Qed.

Lemma strip_cons a s :
  s ≠ EmptyString →
  strip_trailing_slash (String a s) = String a (strip_trailing_slash s).
Proof. by destruct s. Qed.

Lemma strip_append_slash p : strip_trailing_slash (p +:+ "/") = p.
Proof.
  induction p as [|a p IH]; [done|].
  change (String a p +:+ "/") with (String a (p +:+ "/")).
  rewrite strip_cons by apply append_nonempty. by rewrite IH.
Qed.

Lemma strip_append_slashes p : strip_trailing_slash (p +:+ "//") = p +:+ "/".
Proof.
  induction p as [|a p IH]; [done|].
  change (String a p +:+ "//") with (String a (p +:+ "//")).
  rewrite strip_cons by apply append_nonempty. by rewrite IH.
Qed.

Lemma strip_not_ending p : not_ending_in "/" p → strip_trailing_slash p = p.
Proof.
  unfold not_ending_in. induction p as [|a p IH]; [done|].
  destruct p as [|b p].
  - cbn. intros Ha. destruct (Ascii.eqb_spec a "/"); congruence.
  - intros Hlast. rewrite strip_cons by done. f_equal. apply IH. exact Hlast.
Qed.

Lemma append_slash_not_root p a q : (String a p) +:+ String "/" q ≠ "/"%string.
Proof. cbn. intros [= _ H]. by apply append_nonempty in H. Qed.

Section Site.

Variable SITE_URL : string.

Abbreviation getCanonicalUrl := (getCanonicalUrl SITE_URL).

(** X15: the canonical URL does not depend on the query string: everything
    from the first [?] on is dropped. *)
Theorem canonical_ignores_query p q :
  lacks "?" p →
  getCanonicalUrl (p +:+ String "?" q) = getCanonicalUrl p.
Proof.
  intros Hp. unfold Seo.getCanonicalUrl.
  by rewrite before_query_append, before_query_id.
Qed.

(** X16: a path and the same path with a slash appended have the same
    canonical URL, the site URL followed by the path; the root [/] keeps its
    slash; and only one slash is taken off, so that a path ending in two
    slashes keeps one. *)
Theorem canonical_trailing_slash p :
  lacks "?" p →
  (p ≠ EmptyString → not_ending_in "/" p →
   getCanonicalUrl (p +:+ "/") = getCanonicalUrl p ∧
   getCanonicalUrl p = SITE_URL +:+ p) ∧
  getCanonicalUrl "/" = SITE_URL +:+ "/" ∧
  getCanonicalUrl (p +:+ "//") = SITE_URL +:+ p +:+ "/".
Proof.
  intros Hp. unfold Seo.getCanonicalUrl. split_and!.
  - intros Hne Hend.
    assert (lacks "?" (p +:+ "/")) as Hp'.
    { apply lacks_append; [done|]. apply lacks_cons. split; [done|].
      unfold lacks. cbn. apply not_elem_of_nil. }
    rewrite !before_query_id by done.
    assert (String.eqb (p +:+ "/") "/" = false) as ->.
    { apply String.eqb_neq. destruct p as [|a p]; [done|].
      apply append_slash_not_root. }
    assert (String.eqb p "/" = false) as ->.
    { apply String.eqb_neq. intros ->. by apply Hend. }
    by rewrite strip_append_slash, strip_not_ending.
  - done.
  - assert (lacks "?" (p +:+ "//")) as Hp'.
    { apply lacks_append; [done|]. apply lacks_cons. split; [done|].
      apply lacks_cons. split; [done|]. unfold lacks. cbn. apply not_elem_of_nil. }
    rewrite before_query_id by done.
    assert (String.eqb (p +:+ "//") "/" = false) as ->.
    { apply String.eqb_neq. destruct p as [|a p]; [done|].
      apply append_slash_not_root. }
    by rewrite strip_append_slashes.
Qed.

End Site.

Lemma canonical_ignores_query_witness :
  getCanonicalUrl "https://example.com" "/blog/post?utm=1&x=2" =
  getCanonicalUrl "https://example.com" "/blog/post".
Proof.
  apply (canonical_ignores_query "https://example.com" "/blog/post" "utm=1&x=2").
  unfold lacks. cbn. intros H. by repeat (apply elem_of_cons in H as [H|H]; [discriminate|]);
    apply elem_of_nil in H.
Defined.

Lemma canonical_trailing_slash_witness :
  getCanonicalUrl "https://example.com" "/blog//" = "https://example.com/blog/"%string.
Proof.
  apply (canonical_trailing_slash "https://example.com" "/blog").
  unfold lacks. cbn. intros H. by repeat (apply elem_of_cons in H as [H|H]; [discriminate|]);
    apply elem_of_nil in H.
Defined.

End SeoFacts.

(** ** More on the sanitizer *)

Module MongoSanitizeMore.
Import Js MongoSanitize MongoSanitizeNotions MongoSanitizeFacts.

Lemma same_objects_is_Some (h h' : gmap loc cell) l :
  same_objects h h' → is_Some (h !! l) → is_Some (h' !! l).
Proof.
  intros [Hobj Harr] [[props|elems] Hl].
  - destruct (proj1 (Hobj l)) as [props' ->]; [by eexists|done].
  - by rewrite (Harr l elems Hl).
Qed.

Section Any.

Variable replaceWith : string.
Variable onSanitize : bool.
Variable accessor_hit : nat → bool.

Abbreviation assign := (assign accessor_hit).
Abbreviation clean_key := (clean_key replaceWith onSanitize accessor_hit).
Abbreviation clean_keys := (clean_keys replaceWith onSanitize accessor_hit).
Abbreviation clean := (clean replaceWith onSanitize accessor_hit).
Abbreviation clean_part := (clean_part replaceWith onSanitize accessor_hit).
Abbreviation mongoSanitize := (mongoSanitize replaceWith onSanitize accessor_hit).

(** *** Arrays *)

(** X17: [clean] never writes to an array. Given an array it returns a new
    one of the same length, at a reference that was not in use, and the array
    passed in is still there with the elements it had. *)
Theorem clean_copies_arrays fuel σ l elems σ' v' :
  heap σ !! l = Some (Array elems) →
  clean fuel σ (VRef l) = Some (σ', v') →
  ∃ l' elems',
    v' = VRef l' ∧ l' ≠ l ∧ heap σ !! l' = None ∧
    heap σ' !! l' = Some (Array elems') ∧ length elems' = length elems ∧
    heap σ' !! l = Some (Array elems) ∧
    ∀ a xs, heap σ !! a = Some (Array xs) → heap σ' !! a = Some (Array xs).
Proof.
  intros Hl H.
  destruct (clean_array_returns_copy _ _ _ _ _ _ _ _ _ Hl H)
    as (l' & elems' & -> & Hne & Hfree & Hl' & Hkept).
  exists l', elems'. split_and!; [done..| |done|].
  - destruct fuel as [|fuel]; [done|]. rewrite clean_ref, Hl in H.
    destruct (MongoSanitize.clean_elems _ elems σ) as [[σ1 vs1]|] eqn:H1; [|done].
    simplify_eq. cbn in Hl'. rewrite lookup_insert_eq in Hl'. simplify_eq.
    symmetry. eapply Forall2_length, clean_elems_keeps_objects, H1.
  - intros a xs Ha. by apply (clean_same_objects _ _ _ _ _ _ _ _ H).
Qed.

(** *** What is handed to [onSanitize] *)

Lemma assign_reported l key v σ : reported (assign l key v σ) = reported σ.
Proof.
  unfold MongoSanitize.assign. destruct (own_props σ l); [|done].
  destruct (String.eqb key "__proto__" && negb (has_own key _)); [|done].
  by destruct (accessor_hit _).
Qed.

Lemma delete_key_reported l key σ : reported (delete_key l key σ) = reported σ.
Proof. unfold delete_key. by destruct (own_props σ l). Qed.

Section Loops.

Variable rec : Store → value → option (Store * value).
Hypothesis rec_reports :
  ∀ σ v σ' v', rec σ v = Some (σ', v') →
    ∃ keys, reported σ' = reported σ ++ keys ∧
            Forall (λ key, forbidden key = true) keys ∧
            (onSanitize = false → keys = []).

Lemma clean_key_reports l key σ σ' :
  clean_key rec l key σ = Some σ' →
  ∃ keys, reported σ' = reported σ ++ keys ∧
          Forall (λ key, forbidden key = true) keys ∧
          (onSanitize = false → keys = []).
Proof.
  unfold MongoSanitize.clean_key. cbv zeta. intros H.
  destruct (own_props σ l) as [props|]; [|done].
  destruct (get_prop key props) as [v|].
  2:{ simplify_eq. exists []. by rewrite app_nil_r. }
  destruct (rec _ v) as [[σ2 cv]|] eqn:Hrec; [|done].
  apply rec_reports in Hrec as (keys & Hrep & Hall & Hoff).
  assert (reported σ' = reported σ2) as ->.
  { destruct (forbidden key).
    - simplify_eq. by rewrite assign_reported, delete_key_reported.
    - destruct (negb _); simplify_eq; [by rewrite assign_reported|done]. }
  destruct (forbidden key) eqn:Hf, onSanitize eqn:Hon; cbn in Hrep.
  - exists (key :: keys). split_and!; [by rewrite Hrep, <-app_assoc|by constructor|done].
  - exists keys. auto.
  - exists keys. auto.
  - exists keys. auto.
Qed.

Lemma clean_keys_reports l keys σ σ' :
  clean_keys rec l keys σ = Some σ' →
  ∃ ks, reported σ' = reported σ ++ ks ∧
        Forall (λ key, forbidden key = true) ks ∧
        (onSanitize = false → ks = []).
Proof.
  revert σ. induction keys as [|key keys IH]; intros σ H; cbn in H.
  - simplify_eq. exists []. by rewrite app_nil_r.
  - destruct (clean_key rec l key σ) as [σ1|] eqn:H1; [|done].
    apply clean_key_reports in H1 as (ks1 & Hr1 & Ha1 & Ho1).
    apply IH in H as (ks2 & Hr2 & Ha2 & Ho2).
    exists (ks1 ++ ks2). split_and!.
    + by rewrite Hr2, Hr1, <-app_assoc.
    + by apply Forall_app.
    + intros Hoff. by rewrite Ho1, Ho2.
Qed.

Lemma clean_elems_reports elems σ σ' elems' :
  clean_elems rec elems σ = Some (σ', elems') →
  ∃ ks, reported σ' = reported σ ++ ks ∧
        Forall (λ key, forbidden key = true) ks ∧
        (onSanitize = false → ks = []).
Proof.
  revert σ elems'. induction elems as [|v elems IH]; intros σ elems' H; cbn in H.
  - simplify_eq. exists []. by rewrite app_nil_r.
  - destruct (rec σ v) as [[σ1 v1]|] eqn:H1; [|done].
    destruct (clean_elems rec elems σ1) as [[σ2 vs2]|] eqn:H2; [|done].
    simplify_eq.
    apply rec_reports in H1 as (ks1 & Hr1 & Ha1 & Ho1).
    apply IH in H2 as (ks2 & Hr2 & Ha2 & Ho2).
    exists (ks1 ++ ks2). split_and!.
    + by rewrite Hr2, Hr1, <-app_assoc.
    + by apply Forall_app.
    + intros Hoff. by rewrite Ho1, Ho2.
Qed.

End Loops.

Lemma clean_reports fuel σ v σ' v' :
  clean fuel σ v = Some (σ', v') →
  ∃ keys, reported σ' = reported σ ++ keys ∧
          Forall (λ key, forbidden key = true) keys ∧
          (onSanitize = false → keys = []).
Proof.
  revert σ v σ' v'. induction fuel as [|fuel IH]; intros σ v σ' v' H; [done|].
  destruct v as [| | | | |l];
    try (cbn in H; simplify_eq; exists []; by rewrite app_nil_r).
  rewrite clean_ref in H.
  destruct (heap σ !! l) as [[props|elems]|]; [| |done].
  - destruct (clean_keys (clean fuel) l props.*1 σ) as [σ1|] eqn:H1; [|done].
    simplify_eq. apply (clean_keys_reports _ IH _ _ _ _ H1).
  - destruct (MongoSanitize.clean_elems (clean fuel) elems σ) as [[σ1 vs1]|] eqn:H1;
      [|done].
    simplify_eq. apply (clean_elems_reports _ IH _ _ _ _ H1).
Qed.

(** X18: [onSanitize] is called only with keys that begin with [$] or
    contain a [.], in addition to what was reported before; without a
    callback nothing is reported. *)
Theorem clean_reports_forbidden_keys fuel σ v σ' v' :
  clean fuel σ v = Some (σ', v') →
  ∃ keys, reported σ' = reported σ ++ keys ∧
          Forall (λ key, startsWith "$" key = true ∨ includes "." key = true) keys ∧
          (onSanitize = false → keys = []).
Proof.
  intros (keys & ? & Hall & ?)%clean_reports.
  exists keys. split_and!; [done| |done].
  eapply Forall_impl; [done|]. intros key. unfold forbidden.
  by intros ?%orb_true_iff.
Qed.

(** *** The middleware returns *)

Lemma clean_part_le fuel fuel' part σ σ' :
  (fuel ≤ fuel')%nat →
  clean_part fuel part σ = Some σ' → clean_part fuel' part σ = Some σ'.
Proof.
  unfold MongoSanitize.clean_part. intros Hle.
  destruct (truthy_value part); [|done].
  destruct (clean fuel σ part) as [res|] eqn:H; [|done].
  by rewrite (clean_fuel_le _ _ _ _ _ _ _ _ Hle H).
Qed.

Lemma clean_part_terminates σ part :
  acyclic (heap σ) →
  (∀ l, part = VRef l → is_Some (heap σ !! l)) →
  ∃ fuel σ',
    clean_part fuel part σ = Some σ' ∧ acyclic (heap σ') ∧
    ∀ l, is_Some (heap σ !! l) → is_Some (heap σ' !! l).
Proof.
  intros Hacyclic Hpart. unfold MongoSanitize.clean_part.
  destruct (truthy_value part); [|by exists 0%nat, σ].
  destruct (clean_terminates replaceWith onSanitize accessor_hit σ part Hacyclic Hpart)
    as (fuel & σ' & v' & H & Hacyclic' & _).
  exists fuel, σ'. rewrite H. split_and!; [done..|].
  intros l. apply same_objects_is_Some. by eapply clean_same_objects.
Qed.

(** X19: on request data without cycles the middleware returns: the three
    calls of [clean] all come back, and the heap they leave has no cycle. *)
Theorem mongoSanitize_terminates σ body query params :
  acyclic (heap σ) →
  (∀ part l, part ∈ [body; query; params] → part = VRef l →
             is_Some (heap σ !! l)) →
  ∃ fuel σ',
    mongoSanitize fuel body query params σ = Some σ' ∧ acyclic (heap σ').
Proof.
  intros Hacyclic Hparts.
  destruct (clean_part_terminates σ body Hacyclic)
    as (f1 & σ1 & H1 & Hac1 & Hdom1).
  { intros l. apply Hparts. apply list_elem_of_here. }
  destruct (clean_part_terminates σ1 query Hac1)
    as (f2 & σ2 & H2 & Hac2 & Hdom2).
  { intros l Hl. apply Hdom1. apply (Hparts query); [|done].
    apply list_elem_of_further, list_elem_of_here. }
  destruct (clean_part_terminates σ2 params Hac2)
    as (f3 & σ3 & H3 & Hac3 & _).
  { intros l Hl. apply Hdom2, Hdom1. apply (Hparts params); [|done].
    do 2 apply list_elem_of_further. apply list_elem_of_here. }
  exists (Nat.max (Nat.max f1 f2) f3), σ3. split; [|done].
  unfold MongoSanitize.mongoSanitize.
  set (fuel := Nat.max (Nat.max f1 f2) f3).
  assert (f1 ≤ fuel ∧ f2 ≤ fuel ∧ f3 ≤ fuel)%nat as (Hf1 & Hf2 & Hf3)
    by (unfold fuel; lia).
  rewrite (clean_part_le f1 fuel _ _ _ Hf1 H1).
  rewrite (clean_part_le f2 fuel _ _ _ Hf2 H2).
  by rewrite (clean_part_le f3 fuel _ _ _ Hf3 H3).
Qed.

End Any.

Section Default.

Variable onSanitize : bool.
Variable accessor_hit : nat → bool.

Abbreviation clean_key_ := (MongoSanitize.clean_key "_" onSanitize accessor_hit).
Abbreviation clean_keys_ := (MongoSanitize.clean_keys "_" onSanitize accessor_hit).
Abbreviation clean_ := (MongoSanitize.clean "_" onSanitize accessor_hit).

(** *** Cleaning what is clean *)

Lemma certified_visited G σ l rest :
  certified (heap σ) G → l ∈ G → visited_but rest G σ l.
Proof.
  intros Hc Hl props key v Hown Hget. right.
  apply own_props_Some in Hown.
  destruct (Hc l Hl) as (c & Hlc & Hk & Hv). rewrite Hown in Hlc. simplify_eq.
  split.
  - apply Hk, get_prop_keys. eauto.
  - apply Hv. by exists key.
Qed.

Section Loops.

Variable fuel : nat.
Hypothesis quiet :
  ∀ σ v σ' v' G,
    certified (heap σ) G → val_in G v →
    clean_ fuel σ v = Some (σ', v') → reported σ' = reported σ.

Lemma clean_key_quiet l key σ σ' G :
  certified (heap σ) G → l ∈ G →
  clean_key_ (clean_ fuel) l key σ = Some σ' →
  reported σ' = reported σ ∧ ∃ G', G ⊆ G' ∧ certified (heap σ') G'.
Proof.
  intros Hc Hl H. split.
  - unfold MongoSanitize.clean_key in H. cbv zeta in H.
    destruct (own_props σ l) as [props|] eqn:Hown; [|done].
    destruct (get_prop key props) as [v|] eqn:Hget; [|by simplify_eq].
    destruct (certified_visited G σ l [] Hc Hl props key v Hown Hget)
      as [?%elem_of_nil|[Hf Hv]]; [done|].
    rewrite Hf in H. cbn [andb] in H.
    destruct (clean_ fuel σ v) as [[σ2 cv]|] eqn:Hrec; [|done].
    apply (quiet _ _ _ _ G Hc Hv) in Hrec.
    destruct (negb _); simplify_eq; [|done].
    by rewrite assign_reported.
  - destruct (clean_key_sound onSanitize accessor_hit (clean_ fuel)
                (clean_sound onSanitize accessor_hit fuel) l key [] σ σ' G H Hc)
      as (G' & ? & ? & _); [by apply certified_visited|]. eauto.
Qed.

Lemma clean_keys_quiet l keys σ σ' G :
  certified (heap σ) G → l ∈ G →
  clean_keys_ (clean_ fuel) l keys σ = Some σ' →
  reported σ' = reported σ.
Proof.
  revert σ G. induction keys as [|key keys IH]; intros σ G Hc Hl H; cbn in H.
  - by simplify_eq.
  - destruct (clean_key_ (clean_ fuel) l key σ) as [σ1|] eqn:H1; [|done].
    destruct (clean_key_quiet l key σ σ1 G Hc Hl H1) as (Hr & G1 & HG & Hc1).
    rewrite <-Hr. apply (IH σ1 G1); [done| |done]. by apply HG.
Qed.

Lemma clean_elems_quiet elems σ σ' elems' G :
  certified (heap σ) G → Forall (val_in G) elems →
  clean_elems (clean_ fuel) elems σ = Some (σ', elems') →
  reported σ' = reported σ.
Proof.
  revert σ elems' G. induction elems as [|v elems IH]; intros σ elems' G Hc Hall H;
    cbn in H.
  - by simplify_eq.
  - apply Forall_cons in Hall as [Hv Hvs].
    destruct (clean_ fuel σ v) as [[σ1 v1]|] eqn:H1; [|done].
    destruct (clean_elems (clean_ fuel) elems σ1) as [[σ2 vs2]|] eqn:H2; [|done].
    simplify_eq.
    destruct (clean_sound _ _ _ _ _ _ _ G H1 Hc) as (G1 & HG & Hc1 & _).
    rewrite <-(quiet _ _ _ _ G Hc Hv H1).
    apply (IH σ1 vs2 G1); [done| |done].
    eapply Forall_impl; [done|]. intros x. by apply val_in_mono.
Qed.

End Loops.

Lemma clean_quiet fuel σ v σ' v' G :
  certified (heap σ) G → val_in G v →
  clean_ fuel σ v = Some (σ', v') → reported σ' = reported σ.
Proof.
  revert σ v σ' v' G. induction fuel as [|fuel IH]; intros σ v σ' v' G Hc Hv H;
    [done|].
  destruct v as [| | | | |l]; try (cbn in H; by simplify_eq).
  rewrite clean_ref in H. cbn in Hv.
  destruct (Hc l Hv) as (c & Hl & _ & Hmem). rewrite Hl in H.
  destruct c as [props|elems].
  - destruct (clean_keys_ (clean_ fuel) l props.*1 σ) as [σ1|] eqn:H1; [|done].
    simplify_eq. by apply (clean_keys_quiet fuel IH l props.*1 σ σ' G).
  - destruct (clean_elems (clean_ fuel) elems σ) as [[σ1 vs1]|] eqn:H1; [|done].
    simplify_eq. cbn.
    apply (clean_elems_quiet fuel IH elems σ σ1 vs1 G); [done| |done].
    apply Forall_forall. intros x Hx. by apply Hmem.
Qed.

(** X20: cleaning the result of [clean] once more reports no key, and
    leaves every object that can be reached from it with exactly the keys it
    had. *)
Theorem clean_again_changes_no_key fuel σ v σ1 v1 fuel' σ2 v2 :
  clean_ fuel σ v = Some (σ1, v1) →
  clean_ fuel' σ1 v1 = Some (σ2, v2) →
  reported σ2 = reported σ1 ∧
  ∀ m props1 props2 key,
    reach (heap σ1) v1 m →
    heap σ1 !! m = Some (Object props1) →
    heap σ2 !! m = Some (Object props2) →
    key ∈ props2.*1 ↔ key ∈ props1.*1.
Proof.
  intros H1 H2.
  destruct (clean_sound _ _ _ _ _ _ _ ∅ H1) as (G & _ & Hc & _ & Hv1 & _);
    [by intros ? ?%elem_of_empty|].
  split; [by apply (clean_quiet fuel' σ1 v1 σ2 v2 G)|].
  intros m props1 props2 key Hr Hm1 Hm2.
  assert (m ∈ G) as HmG by (by apply (certified_reach G (heap σ1) v1 m)).
  destruct (Hc m HmG) as (c & Hmc & Hk & _). rewrite Hm1 in Hmc. simplify_eq.
  destruct (clean_rekeyed _ _ _ _ _ _ _ H2) as [_ Hkeys].
  destruct (Hkeys m props1 props2 Hm1 Hm2) as [Hfw Hbw]. split.
  - intros [?|(key0 & Hin & Hbad & _)]%Hbw; [done|].
    by rewrite (Hk key0 Hin) in Hbad.
  - intros Hin. destruct (Hfw key Hin) as [?|[Hbad _]]; [done|].
    by rewrite (Hk key Hin) in Hbad.
Qed.

(** *** Flat objects *)

Lemma strict_eq_refl v : strict_eq v v = true.
Proof.
  destruct v; cbn; [done|done| | | |].
  - by destruct b.
  - apply Z.eqb_refl.
  - apply String.eqb_refl.
  - apply Pos.eqb_refl.
Qed.

Section FlatLoop.

Variable rec : Store → value → option (Store * value).
Hypothesis rec_primitive : ∀ σ v, is_ref v = false → rec σ v = Some (σ, v).

Lemma clean_key_flat l P key rest σ ps :
  flat P → collision_free P →
  own_props σ l = Some ps →
  tracks P ps (key :: rest) →
  ∃ σ' ps',
    clean_key_ rec l key σ = Some σ' ∧ own_props σ' l = Some ps' ∧
    tracks P ps' rest.
Proof.
  intros Hflat Hfree Hown (I1 & I2 & I3).
  unfold MongoSanitize.clean_key. cbv zeta. rewrite Hown.
  destruct (get_prop key ps) as [v0|] eqn:Hget.
  2:{ exists σ, ps. split_and!; [done..|]. split_and!; [done| |].
      - intros k v Hk Hf. destruct (I2 k v Hk Hf) as [[Hin Hks]|?]; [|by right].
        left. split; [|done].
        apply elem_of_cons in Hin as [->|?]; [congruence|done].
      - intros k' v Hk. destruct (I3 k' v Hk) as [[HP Hin]|?]; [|by right].
        left. split; [done|]. intros Hf.
        pose proof (Hin Hf) as [->|?]%elem_of_cons; [congruence|done]. }
  (* the value comes from [P], under this very key when the key is forbidden *)
  assert (is_ref v0 = false) as Hprim.
  { destruct (I3 key v0 Hget) as [[HP _]|(k & HP & _)]; by eapply Hflat. }
  set (σ1 := if forbidden key && onSanitize then report key σ else σ).
  assert (heap σ1 = heap σ) as Hσ1
    by (unfold σ1; by destruct (forbidden key && onSanitize)).
  assert (own_props σ1 l = Some ps) as Hown1.
  { unfold own_props in *. by rewrite Hσ1. }
  rewrite (rec_primitive σ1 v0 Hprim).
  destruct (forbidden key) eqn:Hf.
  - assert (get_prop key P = Some v0) as HP.
    { destruct (I3 key v0 Hget) as [[HP _]|(k & _ & _ & ->)]; [done|].
      by rewrite replace_forbidden_clean in Hf. }
    assert (key ∈ P.*1) as Hin by (apply get_prop_keys; eauto).
    destruct (Hfree key Hin Hf) as (Hnew & Hproto & Hinj).
    apply own_props_Some in Hown1.
    pose proof (delete_key_props l key σ1 ps Hown1) as Hdel.
    destruct (assign_set_or_absorbed accessor_hit l (replace_forbidden "_" key) v0
                (delete_key l key σ1) (delete_prop key ps)) as [Heq|[? _]];
      [by rewrite Hdel, lookup_insert_eq| |done].
    eexists _, (set_prop (replace_forbidden "_" key) v0 (delete_prop key ps)).
    split_and!; [done|apply own_props_Some; by rewrite Heq, lookup_insert_eq|].
    assert (∀ k, get_prop k (set_prop (replace_forbidden "_" key) v0
                               (delete_prop key ps)) =
                 if String.eqb (replace_forbidden "_" key) k then Some v0
                 else if String.eqb key k then None else get_prop k ps) as Hnewps.
    { intros k. by rewrite get_prop_set, get_prop_delete. }
    split_and!.
    + intros k v Hk Hfk. rewrite Hnewps.
      destruct (String.eqb_spec (replace_forbidden "_" key) k) as [<-|_].
      { exfalso. apply Hnew, get_prop_keys. eauto. }
      destruct (String.eqb_spec key k) as [<-|_]; [congruence|]. by apply I1.
    + intros k v Hk Hfk. rewrite !Hnewps.
      destruct (String.eqb_spec (replace_forbidden "_" key) k) as [<-|_].
      { by rewrite replace_forbidden_clean in Hfk. }
      destruct (decide (key = k)) as [<-|Hne].
      * right. rewrite !String.eqb_refl. split; [done|congruence].
      * apply String.eqb_neq in Hne as Hne'. rewrite Hne'.
        assert (String.eqb (replace_forbidden "_" key) (replace_forbidden "_" k)
                = false) as ->.
        { apply String.eqb_neq. intros Heqk. apply Hne. symmetry.
          apply Hinj; [apply get_prop_keys; eauto|done..]. }
        assert (String.eqb key (replace_forbidden "_" k) = false) as ->.
        { apply String.eqb_neq. intros ->.
          by rewrite replace_forbidden_clean in Hf. }
        destruct (I2 k v Hk Hfk) as [[Hink Hks]|?]; [|by right].
        left. split; [|done].
        apply elem_of_cons in Hink as [->|?]; [done|done].
    + intros k' v. rewrite Hnewps.
      destruct (String.eqb_spec (replace_forbidden "_" key) k') as [<-|_].
      { intros [= <-]. right. by exists key. }
      destruct (String.eqb_spec key k') as [<-|Hne]; [done|]. intros Hk.
      destruct (I3 k' v Hk) as [[HP' Hink]|?]; [|by right].
      left. split; [done|]. intros Hfk.
      pose proof (Hink Hfk) as [->|?]%elem_of_cons; [done|done].
  - assert (read_prop l key σ1 = v0) as ->.
    { unfold read_prop. by rewrite Hown1, Hget. }
    rewrite strict_eq_refl. cbn [negb].
    exists σ1, ps. split_and!; [done..|]. split_and!; [done| |].
    + intros k v Hk Hfk. destruct (I2 k v Hk Hfk) as [[Hink Hks]|?]; [|by right].
      left. split; [|done].
      apply elem_of_cons in Hink as [->|?]; [congruence|done].
    + intros k' v Hk. destruct (I3 k' v Hk) as [[HP' Hink]|?]; [|by right].
      left. split; [done|]. intros Hfk.
      pose proof (Hink Hfk) as [->|?]%elem_of_cons; [congruence|done].
Qed.

Lemma clean_keys_flat l P keys σ ps :
  flat P → collision_free P →
  own_props σ l = Some ps →
  tracks P ps keys →
  ∃ σ' ps',
    clean_keys_ rec l keys σ = Some σ' ∧ own_props σ' l = Some ps' ∧
    tracks P ps' [].
Proof.
  intros Hflat Hfree. revert σ ps.
  induction keys as [|key keys IH]; intros σ ps Hown Htr; cbn.
  - by exists σ, ps.
  - destruct (clean_key_flat l P key keys σ ps Hflat Hfree Hown Htr)
      as (σ1 & ps1 & -> & Hown1 & Htr1).
    by apply (IH σ1 ps1).
Qed.

End FlatLoop.

(** X21: on an object whose values are all primitives and whose keys do not
    collide, [clean] returns and loses nothing: every value is found under
    its key, or under the replacement of its key when the key was forbidden,
    and the object holds no other property. *)
Theorem clean_flat_keeps_values fuel σ l props :
  heap σ !! l = Some (Object props) →
  flat props → collision_free props →
  ∃ σ' props',
    clean_ (S (S fuel)) σ (VRef l) = Some (σ', VRef l) ∧
    heap σ' !! l = Some (Object props') ∧
    (∀ key v, get_prop key props = Some v →
              get_prop (final_key key) props' = Some v) ∧
    (∀ key' v, get_prop key' props' = Some v →
               ∃ key, get_prop key props = Some v ∧ key' = final_key key).
Proof.
  intros Hl Hflat Hfree. rewrite clean_ref, Hl.
  destruct (clean_keys_flat (clean_ (S fuel))
              (clean_primitive "_" onSanitize accessor_hit fuel)
              l props props.*1 σ props Hflat Hfree)
    as (σ' & props' & -> & Hown & I1 & I2 & I3).
  { by apply own_props_Some. }
  { split_and!; [done| |].
    - intros k v Hk _. left. split; [|done]. apply get_prop_keys. eauto.
    - intros k v Hk. left. split; [done|]. intros _. apply get_prop_keys. eauto. }
  exists σ', props'. split_and!; [done|by apply own_props_Some| |].
  - intros key v Hk. unfold final_key. destruct (forbidden key) eqn:Hf.
    + destruct (I2 key v Hk Hf) as [[?%elem_of_nil _]|[_ ?]]; done.
    + by apply I1.
  - intros key' v Hk. destruct (I3 key' v Hk) as [[HP Hin]|(k & HP & Hf & ->)].
    + exists key'. split; [done|]. unfold final_key.
      destruct (forbidden key') eqn:Hf; [|done].
      by pose proof (Hin eq_refl) as ?%elem_of_nil.
    + exists k. split; [done|]. unfold final_key. by rewrite Hf.
Qed.

End Default.

(** *** Examples *)

(** The array inside [sample_store] is copied to a new reference and stays
    as it was. *)
Lemma clean_copies_arrays_witness :
  ∃ σ' l' elems',
    clean "_" true (λ _, true) 3 sample_store (VRef 2) = Some (σ', VRef l') ∧
    l' ≠ 2%positive ∧
    heap σ' !! l' = Some (Array elems') ∧ length elems' = 2%nat ∧
    heap σ' !! 2%positive = Some (Array [VRef 3; VString "s"]).
Proof.
  destruct (clean "_" true (λ _, true) 3 sample_store (VRef 2))
    as [[σ' v']|] eqn:H; [|vm_compute in H; discriminate].
  destruct (clean_copies_arrays "_" true (λ _, true) 3 sample_store 2%positive
              [VRef 3; VString "s"] σ' v' eq_refl H)
    as (l' & elems' & -> & Hne & _ & Hl' & Hlen & Hl & _).
  by exists σ', l', elems'.
Defined.

Lemma clean_reports_forbidden_keys_witness :
  ∃ keys,
    reported sample_cleaned = reported sample_store ++ keys ∧
    Forall (λ key, startsWith "$" key = true ∨ includes "." key = true) keys ∧
    (true = false → keys = []).
Proof.
  exact (clean_reports_forbidden_keys "_" true (λ _, true) 4 sample_store (VRef 1)
           sample_cleaned (VRef 1) sample_clean).
Defined.

(** The body is the object at 1, the query the object at 3, and there are
    no route parameters. *)
Lemma mongoSanitize_terminates_witness :
  ∃ fuel σ',
    mongoSanitize "_" true (λ _, true) fuel (VRef 1) (VRef 3) VNull sample_store
    = Some σ' ∧ acyclic (heap σ').
Proof.
  apply mongoSanitize_terminates.
  - exists sample_rank. exact sample_store_ranked.
  - intros part l Hin ->.
    repeat (apply elem_of_cons in Hin as [Hin|Hin]; [simplify_eq; by eexists|]).
    by apply elem_of_nil in Hin.
Defined.

Lemma clean_again_changes_no_key_witness :
  ∃ σ2 v2,
    clean "_" true (λ _, true) 4 sample_cleaned (VRef 1) = Some (σ2, v2) ∧
    reported σ2 = reported sample_cleaned.
Proof.
  destruct (clean "_" true (λ _, true) 4 sample_cleaned (VRef 1))
    as [[σ2 v2]|] eqn:H; [|vm_compute in H; discriminate].
  exists σ2, v2. split; [done|].
  exact (proj1 (clean_again_changes_no_key true (λ _, true) 4 sample_store (VRef 1)
                  sample_cleaned (VRef 1) 4 σ2 v2 sample_clean H)).
Defined.

Lemma flat_store_flat :
  flat [("a.b", VNumber 1); ("$c", VString "x"); ("d", VNull)]%string.
Proof.
  intros key v H. cbn in H. repeat (case_match; simplify_eq); done.
Qed.

Lemma flat_store_collision_free :
  collision_free [("a.b", VNumber 1); ("$c", VString "x"); ("d", VNull)]%string.
Proof.
  assert (replace_forbidden "_" "a.b" = "a_b"%string) as Hab by reflexivity.
  assert (replace_forbidden "_" "$c" = "_c"%string) as Hc by reflexivity.
  assert (forbidden "d" = false) as Hd by reflexivity.
  assert (∀ x : string, x ∈ ["a.b"; "$c"; "d"]%string →
            x = "a.b"%string ∨ x = "$c"%string ∨ x = "d"%string) as Hcases.
  { intros x Hx. repeat (apply elem_of_cons in Hx as [Hx|Hx]; [by auto|]).
    by apply elem_of_nil in Hx. }
  intros key Hin Hf. cbn in Hin.
  destruct (Hcases key Hin) as [-> | [-> | ->]]; [| |congruence].
  - rewrite Hab. split_and!; [|done|].
    + intros [?|[?|?]]%Hcases; discriminate.
    + intros key' [-> | [-> | ->]]%Hcases Hf' Heq; [done| |congruence].
      rewrite Hc in Heq. discriminate.
  - rewrite Hc. split_and!; [|done|].
    + intros [?|[?|?]]%Hcases; discriminate.
    + intros key' [-> | [-> | ->]]%Hcases Hf' Heq; [|done|congruence].
      rewrite Hab in Heq. discriminate.
Qed.

(** [{ "a.b": 1, "$c": "x", "d": null }] becomes an object that holds 1
    under [a_b] and "x" under [_c]. *)
Lemma clean_flat_keeps_values_witness :
  ∃ σ' props',
    clean "_" true (λ _, true) 2 flat_store (VRef 1) = Some (σ', VRef 1) ∧
    heap σ' !! 1%positive = Some (Object props') ∧
    get_prop "a_b" props' = Some (VNumber 1) ∧
    get_prop "_c" props' = Some (VString "x").
Proof.
  destruct (clean_flat_keeps_values true (λ _, true) 0 flat_store 1%positive
              [("a.b", VNumber 1); ("$c", VString "x"); ("d", VNull)]%string
              eq_refl flat_store_flat flat_store_collision_free)
    as (σ' & props' & H & Hl & Hfw & _).
  exists σ', props'. split_and!; [done|done| |].
  - exact (Hfw "a.b"%string (VNumber 1) eq_refl).
  - exact (Hfw "$c"%string (VString "x") eq_refl).
Defined.

End MongoSanitizeMore.
